(** * scripts/extract-pdf-text.py: normalizer, indexer and writer

    A shallow embedding of the script.  A Python [str] is a list of
    characters; a character is a code point of the Latin-1 range or one of
    U+0130 and U+0307, on which [str.strip], [str.lower] and the ordering of
    strings are modelled as CPython defines them.  Python integers are
    [Z]. *)

From Stdlib Require Import Ascii String.
From Stdlib Require Import List ZArith NArith Lia Bool Arith.
From Stdlib Require Import Sorting.Sorted Sorting.Permutation.
From Stdlib Require Import Numbers.DecimalString.
From Stdlib Require Numbers.DecimalZ.
From Equations Require Import Equations.
Import ListNotations.

Local Open Scope list_scope.

(** ** Python strings *)

Module PyStr.

(** A character is a code point: one of the Latin-1 range, held by an
    [ascii], or U+0130 (capital I with dot above) or U+0307 (combining dot
    above), the code points with which [str.lower] turns one character into
    two. *)
Inductive char :=
| Chr (a : ascii)
| IDot
| DotAbove.

Definition code (c : char) : N :=
  match c with
  | Chr a => N_of_ascii a
  | IDot => 304
  | DotAbove => 775
  end.

Module Char.

Definition eqb (a b : char) : bool := N.eqb (code a) (code b).

Definition compare (a b : char) : comparison := N.compare (code a) (code b).

End Char.

Definition char_dec : forall a b : char, {a = b} + {a <> b}.
Proof. decide equality. apply ascii_dec. Defined.

Definition str := list char.

Definition nl : char := Chr (ascii_of_nat 10).
Definition cr : char := Chr (ascii_of_nat 13).
Definition tab : char := Chr (ascii_of_nat 9).
Definition sp : char := Chr (ascii_of_nat 32).
Definition backslash : char := Chr (ascii_of_nat 92).

(** Reads a literal the way Python reads a plain string literal: the
    escapes [\n], [\r], [\t] and [\\] denote one character each. *)
Fixpoint unescape (s : string) : str :=
  match s with
  | EmptyString => []
  | String c rest =>
      if Ascii.eqb c (ascii_of_nat 92) then
        match rest with
        | String "n" rest' => nl :: unescape rest'
        | String "r" rest' => cr :: unescape rest'
        | String "t" rest' => tab :: unescape rest'
        | String "\" rest' => backslash :: unescape rest'
        | _ => Chr c :: unescape rest
        end
      else Chr c :: unescape rest
  end.

Definition py (s : string) : str := unescape s.

(** [str.isspace] on one character: the code points CPython's
    [_PyUnicode_IsWhitespace] accepts, among those of [char]. *)
Definition isspace (c : char) : bool :=
  let n := code c in
  ((9 <=? n) && (n <=? 13) || (28 <=? n) && (n <=? 32)
   || (n =? 133) || (n =? 160))%N.

Fixpoint lstrip (s : str) : str :=
  match s with
  | [] => []
  | c :: rest => if isspace c then lstrip rest else s
  end.

Fixpoint rstrip (s : str) : str :=
  match s with
  | [] => []
  | c :: rest =>
      match rstrip rest with
      | [] => if isspace c then [] else [c]
      | kept => c :: kept
      end
  end.

Definition strip (s : str) : str := rstrip (lstrip s).

(** [s.startswith(p)] *)
Fixpoint startswith (p s : str) : bool :=
  match p, s with
  | [], _ => true
  | _ :: _, [] => false
  | a :: p', b :: s' => Char.eqb a b && startswith p' s'
  end.

(** [s.replace(old, new)]: occurrences of [old] are replaced from left to
    right without overlap; an empty [old] matches before every character and
    at the end. *)
Equations? replace (old new s : str) : str by wf (length s) lt :=
  replace [] new s := new ++ flat_map (fun c => c :: new) s;
  replace (o :: old') new [] := [];
  replace (o :: old') new (c :: s) with startswith (o :: old') (c :: s) := {
    | true := new ++ replace (o :: old') new (skipn (length old') s);
    | false := c :: replace (o :: old') new s }.
Proof.
  all: try rewrite length_skipn; simpl; lia.
Qed.

(** The lowercase of a Latin-1 code point.  Below 256 the cased letters
    are A-Z and U+00C0-U+00DE without U+00D7; each maps to the code point 32
    above. *)
Definition lower_latin (a : ascii) : ascii :=
  let n := N_of_ascii a in
  if ((65 <=? n) && (n <=? 90)
      || (192 <=? n) && (n <=? 222) && negb (n =? 215))%N
  then ascii_of_N (n + 32) else a.

(** [str.lower] on one character: U+0130 becomes the two code points "i"
    and U+0307. *)
Definition lower_char (c : char) : list char :=
  match c with
  | Chr a => [Chr (lower_latin a)]
  | IDot => [Chr "i"; DotAbove]
  | DotAbove => [DotAbove]
  end.

Definition lower (s : str) : str := flat_map lower_char s.

(** [s.find(sub)]: the lowest index at which [sub] occurs, or -1. *)
Fixpoint find_from (sub s : str) (i : Z) : Z :=
  if startswith sub s then i
  else match s with
       | [] => (-1)%Z
       | _ :: rest => find_from sub rest (i + 1)%Z
       end.

Definition find (s sub : str) : Z := find_from sub s 0%Z.

(** [sub in s] *)
Fixpoint contains (sub s : str) : bool :=
  startswith sub s ||
  match s with
  | [] => false
  | _ :: rest => contains sub rest
  end.

Definition len (s : str) : Z := Z.of_nat (length s).

(** [s[start:stop]] for indices that are not negative. *)
Definition slice (s : str) (start stop : Z) : str :=
  firstn (Z.to_nat stop - Z.to_nat start) (skipn (Z.to_nat start) s).

(** [sep.join(parts)] *)
Fixpoint join (sep : str) (parts : list str) : str :=
  match parts with
  | [] => []
  | [p] => p
  | p :: rest => p ++ sep ++ join sep rest
  end.

(** [str(i)] for an integer, as an f-string field renders it. *)
Definition of_int (i : Z) : str :=
  map Chr (list_ascii_of_string (NilZero.string_of_int (Z.to_int i))).

(** Comparison of two strings, code point by code point. *)
Fixpoint compare (a b : str) : comparison :=
  match a, b with
  | [], [] => Eq
  | [], _ :: _ => Lt
  | _ :: _, [] => Gt
  | x :: a', y :: b' =>
      match Char.compare x y with
      | Eq => compare a' b'
      | o => o
      end
  end.

Definition leb (a b : str) : bool :=
  match compare a b with Gt => false | _ => true end.

Definition eqb (a b : str) : bool :=
  match compare a b with Eq => true | _ => false end.

End PyStr.

Import PyStr.

(** ** Regular expressions

    [re.sub] for the two patterns of the script, both of the shape
    "a character class repeated at least [least] times", [least >= 1]. *)

Module Re.

(** The longest prefix of characters in the class, and what follows it. *)
Fixpoint span (cls : char -> bool) (s : str) : str * str :=
  match s with
  | [] => ([], [])
  | c :: rest =>
      if cls c then let (run, tail) := span cls rest in (c :: run, tail)
      else ([], s)
  end.

Lemma span_length cls s : length (snd (span cls s)) <= length s.
Proof.
  induction s as [|c s IH]; simpl; [lia|].
  destruct (cls c); simpl; [|lia].
  destruct (span cls s); simpl in *. lia.
Qed.

(** [re.sub(cls{least,}, repl, s)]: at each position the greedy quantifier
    takes the whole run of class characters; a run of at least [least] is
    replaced and scanning resumes after it, otherwise one character is
    copied. *)
Equations? sub_run (cls : char -> bool) (least : nat) (repl s : str) : str
  by wf (length s) lt :=
  sub_run cls least repl [] := [];
  sub_run cls least repl (c :: s) with cls c := {
    | false := c :: sub_run cls least repl s;
    | true with Nat.leb least (S (length (fst (span cls s)))) := {
        | true := repl ++ sub_run cls least repl (snd (span cls s));
        | false := c :: sub_run cls least repl s } }.
Proof.
  all: simpl; try lia.
  pose proof (span_length cls s). lia.
Qed.

Definition hspace (c : char) : bool := Char.eqb c sp || Char.eqb c tab.
Definition newline (c : char) : bool := Char.eqb c nl.

End Re.

(** ** normalize_text *)

Definition normalize_text (text : str) : str :=
  let text := replace (py "\r") (py "\n") (replace (py "\r\n") (py "\n") text) in
  let text := Re.sub_run Re.hspace 1 (py " ") text in
  let text := Re.sub_run Re.newline 3 (py "\n\n") text in
  strip text ++ py "\n".

(** ** The run: environment, effects and [main] *)

(** A literal without escapes, as a raw string literal [r"..."]. *)
Definition raw (s : string) : str := map Chr (list_ascii_of_string s).

Definition pdf_path : str :=
  raw "C:\Users\Tay Liku\OneDrive\Desktop\dotnet-api-_splitted-system.windows.automation-windowsdesktop-11.0.pdf".

Inductive out_file := OutTxt | OutIndex.

(** What [page.extract_text()] does on one page of the document. *)
Inductive extraction :=
| Extracted (text : str)
| ExtractedNone
| ExtractionError.

(** What the run finds: whether the PDF exists, what [PdfReader] makes of
    it ([None] when it raises), whether each output file can be written
    and, if not, what the failed write leaves in it, how each output path
    prints, and what the output files hold before.  [write_text] opens the
    file with mode "w" and then writes: a failure at the opening leaves the
    file as it was ([None]); a failure after it leaves the truncated file
    with nothing or a part of the text in it ([Some remains]). *)
Record env := {
  pdf_exists : bool;
  pdf_pages : option (list extraction);
  can_write : out_file -> bool;
  failed_write : out_file -> option str;
  path_text : out_file -> str;
  txt_before : option str;
  index_before : option str
}.

Inductive event :=
| EvExists
| EvOpenReader
| EvExtract (i : Z)
| EvWrite (f : out_file) (content : str)
| EvWriteFailed (f : out_file).

Record state := {
  txt_file : option str;
  index_file : option str;
  events : list event;
  stdout : list str
}.

Inductive exn :=
| SystemExit (msg : str)
| ReaderError
| PageError (i : Z)
| WriteError (f : out_file).

Inductive result (A : Type) :=
| Ok (a : A)
| Raised (e : exn).
Arguments Ok {A} a.
Arguments Raised {A} e.

Definition M (A : Type) : Type := env -> state -> result A * state.

Definition ret {A} (a : A) : M A := fun _ st => (Ok a, st).

Definition bind {A B} (m : M A) (k : A -> M B) : M B :=
  fun e st =>
    match m e st with
    | (Ok a, st') => k a e st'
    | (Raised x, st') => (Raised x, st')
    end.

Definition raise {A} (x : exn) : M A := fun _ st => (Raised x, st).

Notation "x <- m ;; k" := (bind m (fun x => k))
  (at level 61, m at next level, right associativity).
Notation "m ;;; k" := (bind m (fun _ => k))
  (at level 61, right associativity).

Definition log (ev : event) (st : state) : state :=
  {| txt_file := txt_file st; index_file := index_file st;
     events := events st ++ [ev]; stdout := stdout st |}.

(** [pdf_path.exists()] *)
Definition path_exists : M bool :=
  fun e st => (Ok (pdf_exists e), log EvExists st).

(** [PdfReader(str(pdf_path))]; [reader.pages] is the list it yields. *)
Definition open_reader : M (list extraction) :=
  fun e st =>
    match pdf_pages e with
    | Some pages => (Ok pages, log EvOpenReader st)
    | None => (Raised ReaderError, log EvOpenReader st)
    end.

(** [page.extract_text() or ""] for page [i]. *)
Definition extract_text (i : Z) (page : extraction) : M str :=
  fun _ st =>
    match page with
    | Extracted text => (Ok text, log (EvExtract i) st)
    | ExtractedNone => (Ok [], log (EvExtract i) st)
    | ExtractionError => (Raised (PageError i), log (EvExtract i) st)
    end.

(** What a file holds after a failed write. *)
Definition left_by_failure (remains before : option str) : option str :=
  match remains with
  | None => before
  | Some _ => remains
  end.

(** [path.write_text(content, encoding="utf-8")] *)
Definition write_text (f : out_file) (content : str) : M unit :=
  fun e st =>
    if can_write e f then
      (Ok tt,
       match f with
       | OutTxt =>
           {| txt_file := Some content; index_file := index_file st;
              events := events st ++ [EvWrite f content]; stdout := stdout st |}
       | OutIndex =>
           {| txt_file := txt_file st; index_file := Some content;
              events := events st ++ [EvWrite f content]; stdout := stdout st |}
       end)
    else
      (Raised (WriteError f),
       match f with
       | OutTxt =>
           {| txt_file := left_by_failure (failed_write e f) (txt_file st);
              index_file := index_file st;
              events := events st ++ [EvWriteFailed f]; stdout := stdout st |}
       | OutIndex =>
           {| txt_file := txt_file st;
              index_file := left_by_failure (failed_write e f) (index_file st);
              events := events st ++ [EvWriteFailed f]; stdout := stdout st |}
       end).

Definition print (line : str) : M unit :=
  fun _ st =>
    (Ok tt,
     {| txt_file := txt_file st; index_file := index_file st;
        events := events st; stdout := stdout st ++ [line] |}).

Definition index_terms : list str :=
  map py
    [ "AutomationElement"; "AutomationPattern"; "InvokePattern";
      "ValuePattern"; "SelectionPattern"; "TextPattern"; "TransformPattern";
      "WindowPattern"; "AutomationEvent"; "AutomationProperty";
      "AutomationFocusChangedEventHandler"; "StructureChangedEventHandler";
      "Automation.Add"; "Automation.Remove"; "TreeWalker"; "Condition";
      "PropertyCondition"; "AndCondition"; "OrCondition"; "CacheRequest";
      "BoundingRectangle"; "FromHandle"; "FromPoint"; "ElementFromHandle";
      "ElementFromPoint" ]%string.

(** The body of the inner loop for one term: lines 67-73. *)
Definition index_term (i : Z) (page_text lowered : str)
    (index_hits : list str) (term : str) : list str :=
  if contains (lower term) lowered then
    let idx := find lowered (lower term) in
    let start := Z.max 0 (idx - 80) in
    let stop := Z.min (len page_text) (idx + 160) in
    let snippet :=
      strip (replace (py "\n") (py " ") (slice page_text start stop)) in
    index_hits ++ [py "Page " ++ of_int i ++ py ": " ++ term ++ py ": " ++ snippet]
  else index_hits.

(** The body of the page loop after the text was extracted: lines 59-73,
    on the two buffers [chunks] and [index_hits]. *)
Definition page_body (i : Z) (page_text : str)
    (buffers : list str * list str) : list str * list str :=
  let (chunks, index_hits) := buffers in
  match strip page_text with
  | [] => buffers
  | _ :: _ =>
      let page_text := normalize_text page_text in
      let chunks :=
        chunks ++ [py "\n\n=== Page " ++ of_int i ++ py " ===\n\n" ++ page_text] in
      let lowered := lower page_text in
      (chunks, fold_left (index_term i page_text lowered) index_terms index_hits)
  end.

(** [for i, page in enumerate(reader.pages, start=1)] *)
Fixpoint page_loop (i : Z) (pages : list extraction)
    (buffers : list str * list str) : M (list str * list str) :=
  match pages with
  | [] => ret buffers
  | page :: rest =>
      page_text <- extract_text i page ;;
      page_loop (i + 1) rest (page_body i page_text buffers)
  end.

(** [set(xs)], enumerated in the order of first occurrence; [sorted] below
    does not depend on the order. *)
Definition str_eq_dec : forall a b : str, {a = b} + {a <> b} :=
  list_eq_dec char_dec.

Definition py_set (xs : list str) : list str := nodup str_eq_dec xs.

Fixpoint insort (x : str) (sorted_part : list str) : list str :=
  match sorted_part with
  | [] => [x]
  | y :: rest => if PyStr.leb x y then x :: sorted_part else y :: insort x rest
  end.

(** [sorted(xs)] on strings. *)
Definition sorted (xs : list str) : list str := fold_right insort [] xs.

Definition txt_content (chunks : list str) : str :=
  lstrip (concat chunks) ++ py "\n".

Definition index_content (index_hits : list str) : str :=
  join (py "\n") (sorted (py_set index_hits)) ++ py "\n".

Definition main : M unit :=
  found <- path_exists ;;
  if negb found then raise (SystemExit (py "PDF not found: " ++ pdf_path))
  else
    pages <- open_reader ;;
    buffers <- page_loop 1 pages ([], []) ;;
    write_text OutTxt (txt_content (fst buffers)) ;;;
    write_text OutIndex (index_content (snd buffers)) ;;;
    (fun e => print (py "Wrote: " ++ path_text e OutTxt) e) ;;;
    (fun e => print (py "Wrote: " ++ path_text e OutIndex) e) ;;;
    print (py "Pages processed: " ++ of_int (Z.of_nat (length pages))).

Definition init (e : env) : state :=
  {| txt_file := txt_before e; index_file := index_before e;
     events := []; stdout := [] |}.

Definition run (e : env) : result unit * state := main e (init e).

(** The exit status of the process: 0 on a normal return, 1 when
    [SystemExit] carries a message or an exception is not caught. *)
Definition exit_status (r : result unit) : Z :=
  match r with
  | Ok _ => 0
  | Raised _ => 1
  end.

(** ** The normalizer as the specification words it

    Each stage of the contract written as a one-pass function over the
    characters, to be compared with the library calls of [normalize_text]. *)

Module NormSpec.

(** Every "\r\n" pair and every other "\r" becomes one "\n". *)
Fixpoint unify_line_endings (s : str) : str :=
  match s with
  | [] => []
  | c :: rest =>
      if Char.eqb c cr then
        nl :: match rest with
              | c' :: rest' =>
                  if Char.eqb c' nl then unify_line_endings rest'
                  else unify_line_endings rest
              | [] => []
              end
      else c :: unify_line_endings rest
  end.

(** A space or tab followed by another one is dropped; the last one of a
    run becomes a single space. *)
Fixpoint squeeze_hspace (s : str) : str :=
  match s with
  | [] => []
  | c :: rest =>
      if Re.hspace c then
        match rest with
        | c' :: _ => if Re.hspace c' then squeeze_hspace rest
                     else sp :: squeeze_hspace rest
        | [] => [sp]
        end
      else c :: squeeze_hspace rest
  end.

(** A newline followed by two more newlines is dropped: of a run of
    newlines at most two remain, that is, at most one blank line. *)
Fixpoint cap_blank_lines (s : str) : str :=
  match s with
  | [] => []
  | c :: rest =>
      if Re.newline c then
        match rest with
        | c1 :: c2 :: _ =>
            if Re.newline c1 && Re.newline c2 then cap_blank_lines rest
            else c :: cap_blank_lines rest
        | _ => c :: cap_blank_lines rest
        end
      else c :: cap_blank_lines rest
  end.

Definition normalize (s : str) : str :=
  strip (cap_blank_lines (squeeze_hspace (unify_line_endings s))) ++ [nl].

End NormSpec.

(** ** Definitions used to state the properties *)

(** What [strip] returns has neither leading nor trailing whitespace. *)
Definition trimmed (s : str) : Prop := lstrip s = s /\ rstrip s = s.

(** The output of the normalizer before the final newline. *)
Definition normalize_core (text : str) : str :=
  strip (NormSpec.cap_blank_lines
           (NormSpec.squeeze_hspace (NormSpec.unify_line_endings text))).

(** Text without any whitespace character. *)
Definition plain (s : str) : Prop := forall c, In c s -> isspace c = false.

(** *** The page loop as a function of the page texts *)

Definition text_of (page : extraction) : str :=
  match page with
  | Extracted text => text
  | ExtractedNone => []
  | ExtractionError => []
  end.

Definition readable (page : extraction) : Prop := page <> ExtractionError.

(** The buffers after the pages whose texts are [texts], numbered from [i]. *)
Fixpoint collect (i : Z) (texts : list str)
    (buffers : list str * list str) : list str * list str :=
  match texts with
  | [] => buffers
  | text :: rest => collect (i + 1) rest (page_body i text buffers)
  end.

(** [enumerate(xs, start=i)] *)
Fixpoint enumerate {A} (i : Z) (xs : list A) : list (Z * A) :=
  match xs with
  | [] => []
  | x :: rest => (i, x) :: enumerate (i + 1) rest
  end.

Definition add_events (evs : list event) (st : state) : state :=
  {| txt_file := txt_file st; index_file := index_file st;
     events := events st ++ evs; stdout := stdout st |}.

(** The events of a run up to the end of the page loop. *)
Definition reading_events (pages : list extraction) : list event :=
  EvExists :: EvOpenReader
  :: map (fun p => EvExtract (fst p)) (enumerate 1 pages).

Definition all_buffers (pages : list extraction) : list str * list str :=
  collect 1 (map text_of pages) ([], []).

(** A page whose extracted text is empty or only whitespace. *)
Definition blank_page (page : extraction) : Prop :=
  match page with
  | Extracted text => forallb isspace text = true
  | ExtractedNone => True
  | ExtractionError => False
  end.

(** An event that creates or changes an output file. *)
Definition touches_file (ev : event) : Prop :=
  (exists f content, ev = EvWrite f content) \/ (exists f, ev = EvWriteFailed f).

(** [bool(page_text.strip())] *)
Definition nonblank (text : str) : bool :=
  match strip text with [] => false | _ :: _ => true end.

Definition chunk_of (p : Z * str) : str :=
  py "\n\n=== Page " ++ of_int (fst p) ++ py " ===\n\n" ++ normalize_text (snd p).

(** The pages that are not blank, with their ordinals. *)
Definition kept_pages (i : Z) (texts : list str) : list (Z * str) :=
  filter (fun p => nonblank (snd p)) (enumerate i texts).

(** *** Hits *)

Definition char_to (a b : char) (c : char) : char :=
  if Char.eqb c a then b else c.

(** [off] is the offset of the first occurrence of [sub] in [s]. *)
Definition first_match (sub s : str) (off : nat) : Prop :=
  off <= length s
  /\ startswith sub (skipn off s) = true
  /\ forall j, j < off -> startswith sub (skipn j s) = false.

(** The characters of [text] from 80 before [off] to 160 after it, within
    the text: subtraction on [nat] stops at 0 and [firstn] at the end. *)
Definition window (text : str) (off : nat) : str :=
  firstn (off + 160 - (off - 80)) (skipn (off - 80) text).

(** The hit line of [term] on page [i], for the first match at [off]. *)
Definition hit_line (i : Z) (page_text term : str) (off : nat) : str :=
  py "Page " ++ of_int i ++ py ": " ++ term ++ py ": "
  ++ strip (map (char_to nl sp) (window page_text off)).

(** [line] is the hit of [term] on page [i]. *)
Definition hit_of (i : Z) (page_text term line : str) : Prop :=
  exists off,
    first_match (lower term) (lower page_text) off
    /\ line = hit_line i page_text term off.

Definition matches (page_text term : str) : bool :=
  contains (lower term) (lower page_text).

(** *** Order on strings *)

Definition str_lt (a b : str) : Prop := PyStr.compare a b = Lt.
Definition str_le (a b : str) : Prop := PyStr.leb a b = true.

(** *** Example documents *)

Definition blank_env : env :=
  {| pdf_exists := true;
     pdf_pages := Some [Extracted (py "  \n\t"); ExtractedNone; Extracted []];
     can_write := fun _ => true;
     failed_write := fun _ => None;
     path_text := fun _ => py "out";
     txt_before := None;
     index_before := Some (py "old") |}.

Definition empty_env : env :=
  {| pdf_exists := true;
     pdf_pages := Some [];
     can_write := fun _ => true;
     failed_write := fun _ => None;
     path_text := fun _ => py "out";
     txt_before := None;
     index_before := None |}.

Definition missing_env : env :=
  {| pdf_exists := false;
     pdf_pages := None;
     can_write := fun _ => true;
     failed_write := fun _ => None;
     path_text := fun _ => py "out";
     txt_before := Some (py "kept");
     index_before := None |}.

Definition one_page_env : env :=
  {| pdf_exists := true;
     pdf_pages := Some [Extracted (py "TreeWalker")];
     can_write := fun _ => true;
     failed_write := fun _ => None;
     path_text := fun _ => py "out";
     txt_before := None;
     index_before := None |}.

Definition three_pages : list extraction :=
  [Extracted (py "hello AutomationElement world");
   Extracted (py "");
   Extracted (py "  nothing  of interest  ")].

Definition three_page_env : env :=
  {| pdf_exists := true;
     pdf_pages := Some three_pages;
     can_write := fun _ => true;
     failed_write := fun _ => None;
     path_text := fun _ => py "out";
     txt_before := None;
     index_before := None |}.

(** Ten pages, the second and the tenth with a hit. *)
Definition ten_pages : list extraction :=
  [ExtractedNone; Extracted (py "Condition"); ExtractedNone; ExtractedNone;
   ExtractedNone; ExtractedNone; ExtractedNone; ExtractedNone; ExtractedNone;
   Extracted (py "a Condition")].

Definition ten_page_env : env :=
  {| pdf_exists := true;
     pdf_pages := Some ten_pages;
     can_write := fun _ => true;
     failed_write := fun _ => None;
     path_text := fun _ => py "out";
     txt_before := None;
     index_before := None |}.

(** *** Further notions *)

(** The characters of a text that are not whitespace, in order. *)
Definition solid (s : str) : str := filter (fun c => negb (isspace c)) s.

(** The snippet the term loop cuts out for a first match at [off]:
    lines 70-72. *)
Definition snippet_at (page_text : str) (off : nat) : str :=
  strip (map (char_to nl sp) (window page_text off)).

(** The number of occurrences of a character. *)
Definition count_char (c : char) (s : str) : nat := count_occ char_dec s c.

(** The page and term of every hit the loop records, in the order of
    recording. *)
Definition page_keys (i : Z) (texts : list str) : list (Z * str) :=
  flat_map (fun p => map (pair (fst p))
                         (filter (matches (normalize_text (snd p))) index_terms))
           (kept_pages i texts).

(** [line] is a hit line of the page and the listed term of [k]. *)
Definition keyed (k : Z * str) (line : str) : Prop :=
  In (snd k) index_terms
  /\ exists text off, line = hit_line (fst k) text (snd k) off.

Definition colon : char := Chr (ascii_of_nat 58).

(** A term the snippet is sure to show: not empty, without whitespace, and
    no longer than the part of the window after the match. *)
Definition shown_term (term : str) : bool :=
  negb (Nat.eqb (length (lower term)) 0)
  && forallb (fun c => negb (isspace c)) (lower term)
  && Nat.leb (length (lower term)) 160.

(** The lowercase of a character that lowercases to one character. *)
Definition lower_one (c : char) : char :=
  match c with
  | Chr a => Chr (lower_latin a)
  | IDot => IDot
  | DotAbove => DotAbove
  end.

Definition index_locked_env : env :=
  {| pdf_exists := true;
     pdf_pages := Some [Extracted (py "TreeWalker")];
     can_write := fun f => match f with OutTxt => true | OutIndex => false end;
     failed_write := fun _ => Some [];
     path_text := fun _ => py "out";
     txt_before := Some (py "old text");
     index_before := Some (py "old index") |}.

Definition broken_page_env : env :=
  {| pdf_exists := true;
     pdf_pages := Some [Extracted (py "TreeWalker"); ExtractionError;
                        Extracted (py "Condition")];
     can_write := fun _ => true;
     failed_write := fun _ => None;
     path_text := fun _ => py "out";
     txt_before := Some (py "old text");
     index_before := None |}.

(** *** Numerals *)

(** [s] is the decimal numeral of [k]: it reads as a number in normal form,
    without a leading zero or a sign that is not needed, whose value is
    [k]. *)
Definition is_decimal (k : Z) (s : str) : Prop :=
  exists t d,
    s = map Chr (list_ascii_of_string t)
    /\ NilZero.int_of_string t = Some d
    /\ Decimal.norm d = d
    /\ Z.of_int d = k.

(** *** Lines *)

(** The lines of a text: the pieces that end at a newline, and the rest
    after the last newline when there is one. *)
Fixpoint lines_from (cur s : str) : list str :=
  match s with
  | [] => match cur with [] => [] | _ :: _ => [rev cur] end
  | c :: rest =>
      if Char.eqb c nl then rev cur :: lines_from [] rest
      else lines_from (c :: cur) rest
  end.

Definition lines_of (s : str) : list str := lines_from [] s.

(** The longest run of consecutive lines that hold nothing but
    whitespace. *)
Fixpoint longest_blank_run (lines : list str) (run best : nat) : nat :=
  match lines with
  | [] => Nat.max run best
  | line :: rest =>
      if forallb isspace line then longest_blank_run rest (S run) best
      else longest_blank_run rest 0 (Nat.max run best)
  end.

Definition blank_lines_in_a_row (s : str) : nat :=
  longest_blank_run (lines_of s) 0 0.

(** A page whose text holds 200 times U+0130 before the term. *)
Definition dotted_page : str := repeat IDot 200 ++ py " TreeWalker end".


(** ** Basic facts about the string primitives *)

Arguments Char.eqb : simpl never.
Arguments nl : simpl never.
Arguments cr : simpl never.
Arguments tab : simpl never.
Arguments sp : simpl never.
Arguments isspace : simpl never.
Arguments Re.hspace : simpl never.
Arguments Re.newline : simpl never.

Lemma str_len_ind (P : str -> Prop) :
  (forall s, (forall t, length t < length s -> P t) -> P s) -> forall s, P s.
Proof.
  intros H s.
  assert (G : forall n t, length t < n -> P t).
  { induction n as [|n IH]; intros t Ht; [lia|].
    apply H. intros u Hu. apply IH. lia. }
  apply (G (S (length s))). lia.
Qed.

Lemma code_inj a b : code a = code b -> a = b.
Proof.
  destruct a as [x| |], b as [y| |]; cbn [code]; intros H;
    try reflexivity; try discriminate H;
    try (exfalso; pose proof (N_ascii_bounded x); lia);
    try (exfalso; pose proof (N_ascii_bounded y); lia).
  f_equal. rewrite <- (ascii_N_embedding x), <- (ascii_N_embedding y), H.
  reflexivity.
Qed.

Lemma char_eqb_eq a b : Char.eqb a b = true <-> a = b.
Proof.
  unfold Char.eqb. rewrite N.eqb_eq. split; [apply code_inj|intros ->; reflexivity].
Qed.

Lemma char_eqb_refl a : Char.eqb a a = true.
Proof. apply char_eqb_eq. reflexivity. Qed.

Lemma char_eqb_sym a b : Char.eqb a b = Char.eqb b a.
Proof. unfold Char.eqb. apply N.eqb_sym. Qed.

Lemma char_compare_eq a b : Char.compare a b = Eq -> a = b.
Proof. unfold Char.compare. intros H. apply N.compare_eq in H. apply code_inj, H. Qed.

Lemma char_compare_antisym a b : Char.compare a b = CompOpp (Char.compare b a).
Proof. apply N.compare_antisym. Qed.

Lemma char_eqb_true a b : Char.eqb a b = true -> a = b.
Proof. apply char_eqb_eq. Qed.

Lemma replace_hit o old' new c s :
  startswith (o :: old') (c :: s) = true ->
  replace (o :: old') new (c :: s) =
  new ++ replace (o :: old') new (skipn (length old') s).
Proof.
  intros H. rewrite replace_equation_3, H. reflexivity.
Qed.

Lemma replace_miss o old' new c s :
  startswith (o :: old') (c :: s) = false ->
  replace (o :: old') new (c :: s) = c :: replace (o :: old') new s.
Proof.
  intros H. rewrite replace_equation_3, H. reflexivity.
Qed.

Lemma sub_run_skip cls least repl c s :
  cls c = false ->
  Re.sub_run cls least repl (c :: s) = c :: Re.sub_run cls least repl s.
Proof.
  intros H. rewrite Re.sub_run_equation_2, H. reflexivity.
Qed.

Lemma sub_run_hit cls least repl c s :
  cls c = true -> least <= S (length (fst (Re.span cls s))) ->
  Re.sub_run cls least repl (c :: s) =
  repl ++ Re.sub_run cls least repl (snd (Re.span cls s)).
Proof.
  intros H L. rewrite Re.sub_run_equation_2, H. simpl.
  apply Nat.leb_le in L. simpl in L. rewrite L. reflexivity.
Qed.

Lemma sub_run_short cls least repl c s :
  cls c = true -> S (length (fst (Re.span cls s))) < least ->
  Re.sub_run cls least repl (c :: s) = c :: Re.sub_run cls least repl s.
Proof.
  intros H L. rewrite Re.sub_run_equation_2, H. simpl.
  apply Nat.leb_gt in L. simpl in L. rewrite L. reflexivity.
Qed.

(** ** The library calls against the one-pass stages *)

Lemma span_cons_in cls c s :
  cls c = true ->
  Re.span cls (c :: s) = (c :: fst (Re.span cls s), snd (Re.span cls s)).
Proof. intros H. simpl. rewrite H. destruct (Re.span cls s); reflexivity. Qed.

Lemma span_cons_out cls c s :
  cls c = false -> Re.span cls (c :: s) = ([], c :: s).
Proof. intros H. simpl. rewrite H. reflexivity. Qed.

Lemma replace_char_map a b s : replace [a] [b] s = map (char_to a b) s.
Proof.
  induction s as [|c s IH]; [reflexivity|].
  unfold char_to at 1. simpl map.
  destruct (Char.eqb c a) eqn:E.
  - rewrite replace_hit.
    + simpl. rewrite IH. reflexivity.
    + simpl. rewrite char_eqb_sym, E. reflexivity.
  - rewrite replace_miss.
    + rewrite IH. reflexivity.
    + simpl. rewrite char_eqb_sym, E. reflexivity.
Qed.

Lemma line_endings_stage s :
  replace (py "\r") (py "\n") (replace (py "\r\n") (py "\n") s)
  = NormSpec.unify_line_endings s.
Proof.
  change (py "\r") with [cr]. change (py "\n") with [nl].
  change (py "\r\n") with [cr; nl].
  rewrite replace_char_map.
  induction s as [s IH] using str_len_ind.
  destruct s as [|c rest]; [reflexivity|].
  destruct (startswith [cr; nl] (c :: rest)) eqn:E.
  - rewrite replace_hit by exact E.
    simpl in E. destruct rest as [|c' rest']; [rewrite andb_false_r in E; discriminate|].
    rewrite andb_true_r in E. apply andb_prop in E as [E1 E2].
    apply char_eqb_true in E1, E2. subst c c'.
    simpl. rewrite IH by (simpl; lia). reflexivity.
  - rewrite replace_miss by exact E. simpl map.
    rewrite IH by (simpl; lia).
    simpl. unfold char_to.
    destruct (Char.eqb c cr) eqn:Ec; [|reflexivity].
    apply char_eqb_true in Ec. subst c.
    destruct rest as [|c' rest']; [reflexivity|].
    simpl in E. rewrite andb_true_r in E.
    rewrite char_eqb_sym, E. reflexivity.
Qed.

Lemma squeeze_hspace_run c s :
  Re.hspace c = true ->
  NormSpec.squeeze_hspace (c :: s)
  = sp :: NormSpec.squeeze_hspace (snd (Re.span Re.hspace s)).
Proof.
  revert c. induction s as [|c' r IH]; intros c H.
  - simpl. rewrite H. reflexivity.
  - destruct (Re.hspace c') eqn:E.
    + rewrite span_cons_in by exact E. cbn [snd].
      rewrite <- (IH c' E).
      simpl. rewrite H, E. reflexivity.
    + rewrite span_cons_out by exact E. cbn [snd].
      simpl. rewrite H, E. reflexivity.
Qed.

Lemma hspace_stage s :
  Re.sub_run Re.hspace 1 (py " ") s = NormSpec.squeeze_hspace s.
Proof.
  change (py " ") with [sp].
  induction s as [s IH] using str_len_ind.
  destruct s as [|c rest]; [reflexivity|].
  destruct (Re.hspace c) eqn:E.
  - rewrite sub_run_hit by (assumption || lia).
    rewrite squeeze_hspace_run by exact E.
    rewrite IH; [reflexivity|].
    pose proof (Re.span_length Re.hspace rest). simpl. lia.
  - rewrite sub_run_skip by exact E.
    rewrite IH by (simpl; lia). simpl. rewrite E. reflexivity.
Qed.

Lemma newline_true c : Re.newline c = true -> c = nl.
Proof. apply char_eqb_true. Qed.

Lemma cap_blank_lines_long c s :
  Re.newline c = true -> 2 <= length (fst (Re.span Re.newline s)) ->
  NormSpec.cap_blank_lines (c :: s)
  = nl :: nl :: NormSpec.cap_blank_lines (snd (Re.span Re.newline s)).
Proof.
  revert c. induction s as [|c1 s1 IH]; intros c H L; [simpl in L; lia|].
  destruct (Re.newline c1) eqn:E1;
    [|rewrite span_cons_out in L by exact E1; simpl in L; lia].
  rewrite span_cons_in in * by exact E1. cbn [fst] in L. cbn [snd].
  cbn [length] in L.
  destruct s1 as [|c2 s2]; [simpl in L; lia|].
  destruct (Re.newline c2) eqn:E2;
    [|rewrite span_cons_out in L by exact E2; simpl in L; lia].
  assert (D : NormSpec.cap_blank_lines (c :: c1 :: c2 :: s2)
              = NormSpec.cap_blank_lines (c1 :: c2 :: s2)).
  { simpl. rewrite H, E1, E2. reflexivity. }
  rewrite D.
  destruct (Nat.le_gt_cases 2 (length (fst (Re.span Re.newline (c2 :: s2)))))
    as [G|G].
  - apply IH; assumption.
  - rewrite span_cons_in in * by exact E2. cbn [fst] in G. cbn [snd].
    cbn [length] in G.
    destruct s2 as [|c3 s3].
    + simpl. rewrite E1, E2.
      apply newline_true in E1, E2. subst. reflexivity.
    + destruct (Re.newline c3) eqn:E3.
      * rewrite span_cons_in in G by exact E3. simpl in G. lia.
      * rewrite span_cons_out by exact E3. cbn [snd].
        apply newline_true in E1, E2. subst c1 c2.
        simpl. rewrite E3. simpl. destruct s3; reflexivity.
Qed.

Lemma cap_blank_lines_short c s :
  length (fst (Re.span Re.newline s)) < 2 ->
  NormSpec.cap_blank_lines (c :: s) = c :: NormSpec.cap_blank_lines s.
Proof.
  intros L. simpl. destruct (Re.newline c); [|reflexivity].
  destruct s as [|c1 [|c2 s2]]; try reflexivity.
  destruct (Re.newline c1) eqn:E1; [|reflexivity].
  destruct (Re.newline c2) eqn:E2; [|reflexivity].
  rewrite span_cons_in in L by exact E1. cbn [fst] in L.
  rewrite span_cons_in in L by exact E2. simpl in L. lia.
Qed.

Lemma blank_lines_stage s :
  Re.sub_run Re.newline 3 (py "\n\n") s = NormSpec.cap_blank_lines s.
Proof.
  change (py "\n\n") with [nl; nl].
  induction s as [s IH] using str_len_ind.
  destruct s as [|c rest]; [reflexivity|].
  destruct (Re.newline c) eqn:E.
  - destruct (Nat.le_gt_cases 2 (length (fst (Re.span Re.newline rest))))
      as [G|G].
    + rewrite sub_run_hit by (assumption || lia).
      rewrite cap_blank_lines_long by assumption.
      rewrite IH; [reflexivity|].
      pose proof (Re.span_length Re.newline rest). simpl. lia.
    + rewrite sub_run_short by (assumption || lia).
      rewrite cap_blank_lines_short by assumption.
      rewrite IH by (simpl; lia). reflexivity.
  - rewrite sub_run_skip by exact E.
    rewrite IH by (simpl; lia). simpl. rewrite E. reflexivity.
Qed.

Lemma normalize_text_stages s : normalize_text s = NormSpec.normalize s.
Proof.
  unfold normalize_text, NormSpec.normalize.
  rewrite line_endings_stage, hspace_stage, blank_lines_stage. reflexivity.
Qed.

(** ** Stripping *)

Lemma lstrip_suffix s :
  exists a, s = a ++ lstrip s /\ forallb isspace a = true.
Proof.
  induction s as [|c s [a [E F]]]; [exists []; split; reflexivity|].
  simpl. destruct (isspace c) eqn:W.
  - exists (c :: a). simpl. rewrite W, F. split; [congruence|reflexivity].
  - exists []. split; reflexivity.
Qed.

Lemma rstrip_prefix s :
  exists b, s = rstrip s ++ b /\ forallb isspace b = true.
Proof.
  induction s as [|c s [b [E F]]]; [exists []; split; reflexivity|].
  simpl. destruct (rstrip s) as [|k ks] eqn:R.
  - simpl in E. subst b. destruct (isspace c) eqn:W.
    + exists (c :: s). simpl. rewrite W, F. split; reflexivity.
    + exists s. split; [reflexivity|assumption].
  - exists b. split; [|assumption]. simpl. f_equal. exact E.
Qed.

Lemma lstrip_head c s : lstrip (c :: s) = c :: s <-> isspace c = false.
Proof.
  simpl. destruct (isspace c) eqn:W; split; intros H; try congruence.
  exfalso. destruct (lstrip_suffix s) as [a [E _]].
  apply (f_equal (@length _)) in H, E.
  rewrite length_app in E. simpl in H. lia.
Qed.

Lemma lstrip_clean s :
  match lstrip s with [] => True | c :: _ => isspace c = false end.
Proof.
  induction s as [|c s IH]; simpl; [exact I|].
  destruct (isspace c) eqn:W; assumption.
Qed.

Lemma lstrip_lstrip s : lstrip (lstrip s) = lstrip s.
Proof.
  pose proof (lstrip_clean s) as H.
  destruct (lstrip s) as [|c t]; [reflexivity|].
  apply lstrip_head. exact H.
Qed.

Lemma rstrip_snoc_space s c : isspace c = true -> rstrip (s ++ [c]) = rstrip s.
Proof.
  intros W. induction s as [|x s IH]; simpl; [rewrite W; reflexivity|].
  rewrite IH. reflexivity.
Qed.

Lemma rstrip_snoc_keep s c : isspace c = false -> rstrip (s ++ [c]) = s ++ [c].
Proof.
  intros W. induction s as [|x s IH]; simpl; [rewrite W; reflexivity|].
  rewrite IH. destruct (s ++ [c]) eqn:E; [|reflexivity].
  destruct s; discriminate.
Qed.

Lemma rstrip_clean s t c : rstrip s = t ++ [c] -> isspace c = false.
Proof.
  revert t. induction s as [|x s IH]; intros t H; simpl in H.
  - destruct t; discriminate.
  - destruct (rstrip s) as [|k ks] eqn:R.
    + destruct (isspace x) eqn:W; [destruct t; discriminate|].
      destruct t as [|y t]; simpl in H; [congruence|].
      destruct t; discriminate.
    + destruct t as [|y t]; [discriminate|].
      injection H as _ H. exact (IH t H).
Qed.

Lemma rstrip_rstrip s : rstrip (rstrip s) = rstrip s.
Proof.
  destruct (rstrip s) as [|x r] eqn:R; [reflexivity|].
  rewrite <- R.
  destruct (exists_last (l := rstrip s)) as [t [c E]]; [congruence|].
  rewrite E. apply rstrip_snoc_keep. exact (rstrip_clean _ _ _ E).
Qed.

Lemma rstrip_keeps_head c s :
  isspace c = false -> exists r, rstrip (c :: s) = c :: r.
Proof.
  intros W. simpl. rewrite W. destruct (rstrip s); eauto.
Qed.

Lemma strip_trimmed s : trimmed (strip s).
Proof.
  unfold trimmed, strip. split; [|apply rstrip_rstrip].
  pose proof (lstrip_clean s) as H.
  destruct (lstrip s) as [|c t]; [reflexivity|].
  destruct (rstrip_keeps_head c t H) as [r E]. rewrite E.
  apply lstrip_head. exact H.
Qed.

Lemma strip_fixed s : trimmed s -> strip s = s.
Proof. intros [L R]. unfold strip. rewrite L. exact R. Qed.

Lemma strip_infix s :
  exists a b, s = a ++ strip s ++ b
              /\ forallb isspace a = true /\ forallb isspace b = true.
Proof.
  destruct (lstrip_suffix s) as [a [Ea Fa]].
  destruct (rstrip_prefix (lstrip s)) as [b [Eb Fb]].
  exists a, b. unfold strip. rewrite <- Eb. auto.
Qed.

Lemma strip_app_nl core : trimmed core -> strip (core ++ [nl]) = core.
Proof.
  intros [L R]. unfold strip.
  destruct core as [|c t]; [reflexivity|].
  apply lstrip_head in L.
  change ((c :: t) ++ [nl]) with (c :: (t ++ [nl])).
  replace (lstrip (c :: t ++ [nl])) with (c :: t ++ [nl])
    by (symmetry; apply lstrip_head; exact L).
  change (c :: t ++ [nl]) with ((c :: t) ++ [nl]).
  rewrite rstrip_snoc_space by reflexivity. exact R.
Qed.

Lemma strip_blank s : forallb isspace s = true -> strip s = [].
Proof.
  intros H. unfold strip.
  replace (lstrip s) with (@nil char); [reflexivity|].
  induction s as [|c s IH]; [reflexivity|].
  simpl in *. apply andb_prop in H as [W H]. rewrite W. auto.
Qed.

(** ** Occurrences: [in] on prefixes, suffixes and stripped strings *)

Lemma startswith_app p s t :
  startswith p s = true -> startswith p (s ++ t) = true.
Proof.
  revert s. induction p as [|a p IH]; intros s H; [reflexivity|].
  destruct s as [|b s]; [discriminate|].
  simpl in *. apply andb_prop in H as [H1 H2].
  rewrite H1, (IH _ H2). reflexivity.
Qed.

Lemma contains_cons_false p c s :
  contains p (c :: s) = false -> contains p s = false.
Proof. simpl. intros H. apply orb_false_elim in H as [_ H]. exact H. Qed.

Lemma contains_suffix_false p a b :
  contains p (a ++ b) = false -> contains p b = false.
Proof.
  induction a as [|c a IH]; intros H; [exact H|].
  apply IH. exact (contains_cons_false _ _ _ H).
Qed.

Lemma contains_prefix_false p a b :
  contains p (a ++ b) = false -> contains p a = false.
Proof.
  induction a as [|c a IH]; intros H.
  - destruct p; [|reflexivity]. destruct b; discriminate.
  - change ((c :: a) ++ b) with (c :: (a ++ b)) in H.
    simpl in H. apply orb_false_elim in H as [H1 H2].
    simpl. rewrite (IH H2), orb_false_r.
    destruct (startswith p (c :: a)) eqn:E; [|reflexivity].
    pose proof (startswith_app p (c :: a) b E) as G.
    simpl app in G. rewrite G in H1. discriminate.
Qed.

Lemma contains_strip_false p s :
  contains p s = false -> contains p (strip s) = false.
Proof.
  intros H. destruct (strip_infix s) as [a [b [E _]]].
  rewrite E in H. apply contains_suffix_false in H.
  exact (contains_prefix_false _ _ _ H).
Qed.

Lemma in_strip c s : In c (strip s) -> In c s.
Proof.
  intros H. destruct (strip_infix s) as [a [b [E _]]].
  rewrite E. apply in_or_app. right. apply in_or_app. left. exact H.
Qed.

(** ** What each stage guarantees *)

Lemma hspace_cases c : Re.hspace c = true -> c = sp \/ c = tab.
Proof.
  unfold Re.hspace. intros H. apply orb_prop in H as [H|H];
    apply char_eqb_true in H; auto.
Qed.

Lemma unify_no_cr s : ~ In cr (NormSpec.unify_line_endings s).
Proof.
  induction s as [s IH] using str_len_ind.
  destruct s as [|c rest]; [intros []|].
  simpl. destruct (Char.eqb c cr) eqn:E.
  - intros [H|H]; [discriminate|].
    destruct rest as [|c' rest']; [exact H|].
    destruct (Char.eqb c' nl); revert H; apply IH; simpl; lia.
  - intros [H|H].
    + subst c. rewrite char_eqb_refl in E. discriminate.
    + revert H. apply IH. simpl. lia.
Qed.

Lemma squeeze_in c s :
  In c (NormSpec.squeeze_hspace s) ->
  c = sp \/ (In c s /\ Re.hspace c = false).
Proof.
  induction s as [|x rest IH]; [intros []|].
  simpl. destruct (Re.hspace x) eqn:E.
  - destruct rest as [|c' r].
    + intros [H|[]]. auto.
    + destruct (Re.hspace c').
      * intros H. destruct (IH H) as [G|[G1 G2]]; [auto|right; auto].
      * intros [H|H]; [auto|].
        destruct (IH H) as [G|[G1 G2]]; [auto|right; auto].
  - intros [H|H].
    + subst x. right. auto.
    + destruct (IH H) as [G|[G1 G2]]; [auto|right; auto].
Qed.

Lemma squeeze_head_sp s c r :
  NormSpec.squeeze_hspace s = c :: r ->
  match s with [] => False | x :: _ => if Re.hspace x then c = sp else c = x end.
Proof.
  induction s as [|x rest IH]; [discriminate|].
  simpl. destruct (Re.hspace x) eqn:E.
  - destruct rest as [|c' r'].
    + intros H. congruence.
    + destruct (Re.hspace c') eqn:E'.
      * intros H. exact (IH H).
      * intros H. congruence.
  - intros H. congruence.
Qed.

Lemma squeeze_no_double_space s :
  contains [sp; sp] (NormSpec.squeeze_hspace s) = false.
Proof.
  induction s as [|x rest IH]; [reflexivity|].
  assert (K : forall c, (c = sp -> match rest with
                                   | [] => True
                                   | y :: _ => Re.hspace y = false
                                   end) ->
              contains [sp; sp] (c :: NormSpec.squeeze_hspace rest) = false).
  { intros c Hc. simpl contains at 1. rewrite IH, orb_false_r.
    simpl. destruct (Char.eqb sp c) eqn:Ec; [|reflexivity].
    apply char_eqb_true in Ec. symmetry in Ec. specialize (Hc Ec).
    destruct (NormSpec.squeeze_hspace rest) as [|y r] eqn:Q; [reflexivity|].
    apply squeeze_head_sp in Q. destruct rest as [|z rest']; [contradiction|].
    rewrite Hc in Q. subst y.
    destruct (Char.eqb sp z) eqn:Ez; [|reflexivity].
    apply char_eqb_true in Ez. subst z. discriminate. }
  simpl. destruct (Re.hspace x) eqn:E.
  - destruct rest as [|c' r]; [reflexivity|].
    destruct (Re.hspace c') eqn:E'; [exact IH|].
    apply K. intros _. reflexivity.
  - apply K. intros ->. discriminate.
Qed.

Lemma cap_in c s : In c (NormSpec.cap_blank_lines s) -> In c s.
Proof.
  induction s as [|x rest IH]; [intros []|].
  simpl. destruct (Re.newline x).
  - destruct rest as [|c1 [|c2 r]]; try (intros [H|H]; auto).
    destruct (Re.newline c1 && Re.newline c2); [auto|].
    intros [H|H]; auto.
  - intros [H|H]; auto.
Qed.

Lemma cap_head s : hd_error (NormSpec.cap_blank_lines s) = hd_error s.
Proof.
  induction s as [|x rest IH]; [reflexivity|].
  simpl. destruct (Re.newline x) eqn:E; [|reflexivity].
  destruct rest as [|c1 [|c2 r]]; try reflexivity.
  destruct (Re.newline c1 && Re.newline c2) eqn:E2; [|reflexivity].
  rewrite IH. simpl. apply andb_prop in E2 as [E1 _].
  apply newline_true in E, E1. congruence.
Qed.

Lemma startswith_pair a b c s :
  startswith [a; b] (c :: s)
  = Char.eqb a c && match hd_error s with
                     | Some y => Char.eqb b y
                     | None => false
                     end.
Proof. destruct s; simpl; rewrite ?andb_true_r; reflexivity. Qed.

Lemma cap_keeps_no_double_space s :
  contains [sp; sp] s = false ->
  contains [sp; sp] (NormSpec.cap_blank_lines s) = false.
Proof.
  induction s as [|x rest IH]; [reflexivity|].
  intros H. pose proof (contains_cons_false _ _ _ H) as Hr.
  assert (K : contains [sp; sp] (x :: NormSpec.cap_blank_lines rest) = false).
  { cbn [contains] in *. rewrite (IH Hr), orb_false_r.
    apply orb_false_elim in H as [H _].
    rewrite startswith_pair in *. rewrite cap_head. exact H. }
  simpl. destruct (Re.newline x); [|exact K].
  destruct rest as [|c1 [|c2 r]]; try exact K.
  destruct (Re.newline c1 && Re.newline c2); [auto|exact K].
Qed.

Lemma cap_second s :
  startswith [nl; nl] (NormSpec.cap_blank_lines s) = true ->
  startswith [nl; nl] s = true.
Proof.
  induction s as [|x rest IH]; [discriminate|].
  assert (K : startswith [nl; nl] (x :: NormSpec.cap_blank_lines rest) = true ->
              startswith [nl; nl] (x :: rest) = true).
  { rewrite !startswith_pair, cap_head. auto. }
  simpl NormSpec.cap_blank_lines. destruct (Re.newline x) eqn:E; [|exact K].
  destruct rest as [|c1 [|c2 r]]; try exact K.
  destruct (Re.newline c1 && Re.newline c2) eqn:E2; [|exact K].
  intros _. apply andb_prop in E2 as [E1 _].
  apply newline_true in E, E1. subst. reflexivity.
Qed.

Lemma startswith_triple_nl c s :
  startswith [nl; nl; nl] (c :: s) = Re.newline c && startswith [nl; nl] s.
Proof.
  unfold Re.newline. simpl. rewrite (char_eqb_sym nl c). reflexivity.
Qed.

Lemma cap_no_triple_newline s :
  contains [nl; nl; nl] (NormSpec.cap_blank_lines s) = false.
Proof.
  induction s as [|x rest IH]; [reflexivity|].
  assert (K : Re.newline x && startswith [nl; nl] rest = false ->
              contains [nl; nl; nl] (x :: NormSpec.cap_blank_lines rest) = false).
  { intros H. cbn [contains]. rewrite IH, orb_false_r, startswith_triple_nl.
    destruct (Re.newline x); [|reflexivity]. cbn [andb] in *.
    destruct (startswith [nl; nl] (NormSpec.cap_blank_lines rest)) eqn:Q;
      [|reflexivity].
    apply cap_second in Q. congruence. }
  simpl NormSpec.cap_blank_lines. destruct (Re.newline x) eqn:E;
    [|apply K; reflexivity].
  destruct rest as [|c1 [|c2 r]].
  - apply K. reflexivity.
  - apply K. simpl. rewrite andb_false_r. reflexivity.
  - destruct (Re.newline c1 && Re.newline c2) eqn:E2; [exact IH|].
    apply K. simpl. unfold Re.newline in E2.
    rewrite (char_eqb_sym nl c1), (char_eqb_sym nl c2), andb_true_r.
    exact E2.
Qed.

(** ** Appending the final newline *)

Lemma snoc_nl_no_double_space core :
  contains [sp; sp] core = false -> contains [sp; sp] (core ++ [nl]) = false.
Proof.
  induction core as [|c t IH]; [reflexivity|].
  intros H. pose proof (contains_cons_false _ _ _ H) as Ht.
  change ((c :: t) ++ [nl]) with (c :: (t ++ [nl])).
  cbn [contains] in *. rewrite (IH Ht), orb_false_r.
  apply orb_false_elim in H as [H _].
  rewrite startswith_pair in *.
  destruct (Char.eqb sp c); [|reflexivity].
  destruct t; [reflexivity|exact H].
Qed.

Lemma snoc_nl_no_triple_newline core :
  rstrip core = core ->
  contains [nl; nl; nl] core = false ->
  contains [nl; nl; nl] (core ++ [nl]) = false.
Proof.
  intros R.
  assert (L : forall t c, core = t ++ [c] -> c <> nl).
  { intros t c E. rewrite E in R. apply rstrip_clean in R.
    intros ->. discriminate. }
  clear R. induction core as [|c t IH]; [reflexivity|].
  intros H. pose proof (contains_cons_false _ _ _ H) as Ht.
  change ((c :: t) ++ [nl]) with (c :: (t ++ [nl])).
  cbn [contains] in *.
  rewrite IH, orb_false_r; [|intros u d E; apply (L (c :: u) d); rewrite E; reflexivity|exact Ht].
  apply orb_false_elim in H as [H _].
  rewrite startswith_triple_nl in *.
  destruct (Re.newline c) eqn:Ec; [|reflexivity]. simpl in *.
  destruct t as [|x [|y r]].
  - reflexivity.
  - simpl. destruct (Char.eqb nl x) eqn:Ex; [|reflexivity].
    apply char_eqb_true in Ex. subst x.
    exfalso. apply (L [c] nl); reflexivity.
  - simpl in *. exact H.
Qed.

(** ** Text on which a stage changes nothing *)

Lemma unify_fixed s : ~ In cr s -> NormSpec.unify_line_endings s = s.
Proof.
  induction s as [|c rest IH]; [reflexivity|].
  intros H. simpl. destruct (Char.eqb c cr) eqn:E.
  - apply char_eqb_true in E. subst c. exfalso. apply H. left. reflexivity.
  - rewrite IH; [reflexivity|]. intros G. apply H. right. exact G.
Qed.

Lemma squeeze_fixed s :
  ~ In tab s -> contains [sp; sp] s = false -> NormSpec.squeeze_hspace s = s.
Proof.
  induction s as [|c rest IH]; [reflexivity|].
  intros T H. pose proof (contains_cons_false _ _ _ H) as Hr.
  assert (Tr : ~ In tab rest) by (intros G; apply T; right; exact G).
  simpl. rewrite (IH Tr Hr).
  destruct (Re.hspace c) eqn:E; [|reflexivity].
  assert (c = sp) as ->.
  { destruct (hspace_cases c E) as [->| ->]; [reflexivity|].
    exfalso. apply T. left. reflexivity. }
  destruct rest as [|c' r]; [reflexivity|].
  destruct (Re.hspace c') eqn:E'; [|reflexivity].
  exfalso. destruct (hspace_cases c' E') as [->| ->].
  - simpl in H. rewrite ?char_eqb_refl in H. discriminate.
  - apply Tr. left. reflexivity.
Qed.

Lemma cap_fixed s :
  contains [nl; nl; nl] s = false -> NormSpec.cap_blank_lines s = s.
Proof.
  induction s as [|c rest IH]; [reflexivity|].
  intros H. pose proof (contains_cons_false _ _ _ H) as Hr.
  simpl. rewrite (IH Hr).
  destruct (Re.newline c) eqn:E; [|reflexivity].
  destruct rest as [|c1 [|c2 r]]; try reflexivity.
  destruct (Re.newline c1 && Re.newline c2) eqn:E2; [|reflexivity].
  exfalso. apply andb_prop in E2 as [E1 E2].
  apply newline_true in E, E1, E2. subst.
  simpl in H. rewrite ?char_eqb_refl in H. discriminate.
Qed.

Lemma contains_char c s : contains [c] s = false <-> ~ In c s.
Proof.
  induction s as [|x s IH]; simpl.
  - split; [intros _ []|reflexivity].
  - rewrite andb_true_r. split.
    + intros H [G|G].
      * subst x. rewrite char_eqb_refl in H. discriminate.
      * apply orb_false_elim in H as [_ H]. apply IH in H. exact (H G).
    + intros H. destruct (Char.eqb c x) eqn:E.
      * apply char_eqb_true in E. subst x. exfalso. apply H. left. reflexivity.
      * apply IH. intros G. apply H. right. exact G.
Qed.

Lemma normalize_text_core text : normalize_text text = normalize_core text ++ [nl].
Proof. apply normalize_text_stages. Qed.

Lemma core_no_cr text : ~ In cr (normalize_core text).
Proof.
  intros H. apply in_strip, cap_in, squeeze_in in H.
  destruct H as [H|[H _]]; [discriminate|].
  exact (unify_no_cr _ H).
Qed.

Lemma core_no_tab text : ~ In tab (normalize_core text).
Proof.
  intros H. apply in_strip, cap_in, squeeze_in in H.
  destruct H as [H|[_ H]]; discriminate.
Qed.

Lemma core_no_double_space text : contains [sp; sp] (normalize_core text) = false.
Proof.
  apply contains_strip_false, cap_keeps_no_double_space, squeeze_no_double_space.
Qed.

Lemma core_no_triple_newline text :
  contains [nl; nl; nl] (normalize_core text) = false.
Proof. apply contains_strip_false, cap_no_triple_newline. Qed.

Lemma core_trimmed text : trimmed (normalize_core text).
Proof. apply strip_trimmed. Qed.

Lemma not_in_snoc (c x : char) s : c <> x -> ~ In c s -> ~ In c (s ++ [x]).
Proof.
  intros N H G. apply in_app_or in G as [G|[G|[]]]; [exact (H G)|].
  apply N. symmetry. exact G.
Qed.

Lemma normalized_shape text :
  contains [cr] (normalize_text text) = false
  /\ contains [tab] (normalize_text text) = false
  /\ contains [sp; sp] (normalize_text text) = false
  /\ contains [nl; nl; nl] (normalize_text text) = false.
Proof.
  rewrite normalize_text_core.
  repeat split.
  - apply contains_char, not_in_snoc; [discriminate|apply core_no_cr].
  - apply contains_char, not_in_snoc; [discriminate|apply core_no_tab].
  - apply snoc_nl_no_double_space, core_no_double_space.
  - apply snoc_nl_no_triple_newline;
      [apply core_trimmed|apply core_no_triple_newline].
Qed.

(** ** The normalizer: claims *)

(** C10. For every input, the output of [normalize_text] holds no carriage
    return, no tab, no two consecutive spaces and no three consecutive
    newlines. *)
Theorem normalize_text_output_shape (text : str) :
  contains (py "\r") (normalize_text text) = false
  /\ contains (py "\t") (normalize_text text) = false
  /\ contains (py "  ") (normalize_text text) = false
  /\ contains (py "\n\n\n") (normalize_text text) = false.
Proof. exact (normalized_shape text). Qed.

(** C4. [normalize_text] is idempotent, and its output is some text that
    does not end in whitespace followed by exactly one newline. *)
Theorem normalize_text_idempotent (text : str) :
  normalize_text (normalize_text text) = normalize_text text
  /\ exists core,
       normalize_text text = core ++ py "\n"
       /\ forall t c, core = t ++ [c] -> isspace c = false.
Proof.
  split.
  - destruct (normalized_shape text) as [Hcr [Htab [Hsp Hnl]]].
    rewrite (normalize_text_stages (normalize_text text)).
    unfold NormSpec.normalize.
    rewrite unify_fixed by (apply contains_char; exact Hcr).
    rewrite squeeze_fixed by (try apply contains_char; assumption).
    rewrite cap_fixed by exact Hnl.
    rewrite normalize_text_core.
    rewrite strip_app_nl by apply core_trimmed. reflexivity.
  - exists (normalize_core text). split; [apply normalize_text_core|].
    intros t c E. destruct (core_trimmed text) as [_ R].
    rewrite E in R. exact (rstrip_clean _ _ _ R).
Qed.

Lemma squeeze_no_hspace s :
  (forall c, In c s -> Re.hspace c = false) -> NormSpec.squeeze_hspace s = s.
Proof.
  induction s as [|c rest IH]; [reflexivity|].
  intros H. simpl. rewrite (H c) by (left; reflexivity).
  rewrite IH; [reflexivity|]. intros x G. apply H. right. exact G.
Qed.

Lemma cap_no_newline_prefix a t :
  (forall c, In c a -> Re.newline c = false) ->
  NormSpec.cap_blank_lines (a ++ t) = a ++ NormSpec.cap_blank_lines t.
Proof.
  induction a as [|c a IH]; [reflexivity|].
  intros H. change ((c :: a) ++ t) with (c :: (a ++ t)).
  cbn [NormSpec.cap_blank_lines]. rewrite (H c) by (left; reflexivity).
  rewrite IH; [reflexivity|]. intros x G. apply H. right. exact G.
Qed.

Lemma cap_newline_run n b :
  startswith [nl] b = false ->
  NormSpec.cap_blank_lines (repeat nl (S (S n)) ++ b)
  = nl :: nl :: NormSpec.cap_blank_lines b.
Proof.
  intros H. induction n as [|n IH].
  - destruct b as [|x b']; [reflexivity|].
    simpl in H. rewrite andb_true_r in H.
    assert (Ex : Re.newline x = false)
      by (unfold Re.newline; rewrite char_eqb_sym; exact H).
    simpl. rewrite Ex.
    change (Re.newline nl) with true. simpl.
    destruct b'; reflexivity.
  - change (repeat nl (S (S (S n))) ++ b)
      with (nl :: nl :: nl :: (repeat nl n ++ b)).
    rewrite <- IH. reflexivity.
Qed.

Lemma blank_lines_collapse a b k :
  plain a -> plain b -> a <> [] -> b <> [] -> 1 <= k ->
  normalize_text (a ++ repeat nl (S k) ++ b) = a ++ [nl; nl] ++ b ++ [nl].
Proof.
  intros Pa Pb Na Nb K.
  assert (Pr : forall c, In c (a ++ repeat nl (S k) ++ b) ->
                         In c a \/ c = nl \/ In c b).
  { intros c G. apply in_app_or in G as [G|G]; [auto|].
    apply in_app_or in G as [G|G]; [|auto].
    apply repeat_spec in G. auto. }
  rewrite normalize_text_stages. unfold NormSpec.normalize.
  rewrite unify_fixed.
  2:{ intros G. apply Pr in G as [G|[G|G]];
        [apply Pa in G|discriminate|apply Pb in G]; discriminate. }
  rewrite squeeze_no_hspace.
  2:{ intros c G. apply Pr in G as [G|[G|G]]; [apply Pa in G|subst; reflexivity|apply Pb in G];
        destruct (Re.hspace c) eqn:E; try reflexivity;
        destruct (hspace_cases c E); subst; discriminate. }
  assert (Nn : forall s, plain s -> forall c, In c s -> Re.newline c = false).
  { intros s Ps c G. apply Ps in G. destruct (Re.newline c) eqn:E; [|reflexivity].
    apply newline_true in E. subst. discriminate. }
  rewrite cap_no_newline_prefix by (apply Nn; exact Pa).
  destruct k as [|k]; [lia|].
  rewrite cap_newline_run.
  2:{ destruct b as [|x b']; [reflexivity|]. simpl. rewrite andb_true_r.
      rewrite char_eqb_sym. apply (Nn _ Pb). left. reflexivity. }
  rewrite <- (app_nil_r b) at 1.
  rewrite cap_no_newline_prefix by (apply Nn; exact Pb).
  simpl NormSpec.cap_blank_lines. rewrite app_nil_r.
  rewrite strip_fixed.
  - rewrite <- !app_assoc. reflexivity.
  - split.
    + destruct a as [|c a']; [congruence|].
      apply lstrip_head. apply Pa. left. reflexivity.
    + destruct (exists_last Nb) as [t [d E]]. subst b.
      change (a ++ nl :: nl :: t ++ [d]) with (a ++ (nl :: nl :: t) ++ [d]).
      rewrite app_assoc. apply rstrip_snoc_keep.
      apply Pb. apply in_or_app. right. left. reflexivity.
Qed.

Lemma core_clean_ends core :
  trimmed core ->
  (forall c rest, core = c :: rest -> isspace c = false)
  /\ (forall rest c, core = rest ++ [c] -> isspace c = false).
Proof.
  intros [L R]. split.
  - intros c rest E. subst core. apply lstrip_head in L. exact L.
  - intros rest c E. rewrite E in R. exact (rstrip_clean _ _ _ R).
Qed.

(** C2 (as amended). [normalize_text] is the composition the contract
    describes: line endings unified to "\n", runs of spaces and tabs
    squeezed to one space, runs of three or more newline characters cut to
    two, the whole trimmed, and one newline appended.  What is trimmed
    away is whitespace on both sides of a core that neither starts nor
    ends with whitespace.  It is defined on every string, maps the empty
    string to "\n" and "a\r\nb\r\rc" to "a\nb\n\nc\n"; the output never
    holds three newlines in a row, and three or more newlines between two
    words come out as exactly one empty line. *)
Theorem normalize_text_contract :
  (forall text,
     normalize_text text
     = strip (NormSpec.cap_blank_lines
                (NormSpec.squeeze_hspace
                   (NormSpec.unify_line_endings text))) ++ py "\n")
  /\ (forall text,
        exists before core after,
          NormSpec.cap_blank_lines
            (NormSpec.squeeze_hspace (NormSpec.unify_line_endings text))
          = before ++ core ++ after
          /\ forallb isspace before = true
          /\ forallb isspace after = true
          /\ (forall c rest, core = c :: rest -> isspace c = false)
          /\ (forall rest c, core = rest ++ [c] -> isspace c = false)
          /\ normalize_text text = core ++ py "\n")
  /\ normalize_text (py "") = py "\n"
  /\ normalize_text (py "a\r\nb\r\rc") = py "a\nb\n\nc\n"
  /\ (forall text, contains (py "\n\n\n") (normalize_text text) = false)
  /\ (forall a b k,
        plain a -> plain b -> a <> [] -> b <> [] -> 2 <= k ->
        normalize_text (a ++ repeat nl (S k) ++ b)
        = a ++ py "\n\n" ++ b ++ py "\n").
Proof.
  split; [exact normalize_text_stages|].
  split.
  { intros text.
    destruct (strip_infix
                (NormSpec.cap_blank_lines
                   (NormSpec.squeeze_hspace
                      (NormSpec.unify_line_endings text))))
      as [before [after [E [Fb Fa]]]].
    exists before, (normalize_core text), after.
    destruct (core_clean_ends _ (core_trimmed text)) as [Hh Hl].
    split; [exact E|]. split; [exact Fb|]. split; [exact Fa|].
    split; [exact Hh|]. split; [exact Hl|]. apply normalize_text_core. }
  split; [reflexivity|].
  split; [vm_compute; reflexivity|].
  split; [intros text; apply (normalized_shape text)|].
  intros a b k Pa Pb Na Nb K.
  apply blank_lines_collapse; (assumption || lia).
Qed.

Lemma normalize_text_contract_witness :
  normalize_text (py "x" ++ repeat nl 3 ++ py "y")
  = py "x" ++ py "\n\n" ++ py "y" ++ py "\n".
Proof.
  apply (proj2 (proj2 (proj2 (proj2 (proj2 normalize_text_contract))))
           (py "x") (py "y") 2).
  - intros c [<-|[]]. reflexivity.
  - intros c [<-|[]]. reflexivity.
  - discriminate.
  - discriminate.
  - lia.
Defined.

(** C2 as stated fails: three consecutive lines that hold one space each
    are blank lines, and they are not collapsed to one. *)
Lemma blank_lines_with_spaces_kept :
  normalize_text (py "x\n \n \n \ny") = py "x\n \n \n \ny\n"
  /\ blank_lines_in_a_row (py "x\n \n \n \ny") = 3
  /\ blank_lines_in_a_row (normalize_text (py "x\n \n \n \ny")) = 3.
Proof. repeat split; vm_compute; reflexivity. Qed.

(** ** The page loop without its effects *)

Lemma add_events_nil st : add_events [] st = st.
Proof. destruct st. unfold add_events. simpl. rewrite app_nil_r. reflexivity. Qed.

Lemma add_events_log ev evs st :
  add_events evs (log ev st) = add_events (ev :: evs) st.
Proof.
  unfold add_events, log. simpl. rewrite <- app_assoc. reflexivity.
Qed.

Lemma page_loop_ok pages : forall i buffers e st,
  Forall readable pages ->
  page_loop i pages buffers e st
  = (Ok (collect i (map text_of pages) buffers),
     add_events (map (fun p => EvExtract (fst p)) (enumerate i pages)) st).
Proof.
  induction pages as [|page rest IH]; intros i buffers e st H.
  - simpl. rewrite add_events_nil. reflexivity.
  - inversion H as [|? ? Hp Hr]; subst.
    cbn [page_loop]. unfold bind.
    destruct page as [text| |]; [| |exfalso; apply Hp; reflexivity];
      cbn [extract_text]; rewrite IH by exact Hr;
      rewrite add_events_log; reflexivity.
Qed.

Lemma page_loop_error good rest : forall i buffers e st,
  Forall readable good ->
  page_loop i (good ++ ExtractionError :: rest) buffers e st
  = (Raised (PageError (i + Z.of_nat (length good))),
     add_events
       (map (fun p => EvExtract (fst p))
            (enumerate i (good ++ [ExtractionError]))) st).
Proof.
  induction good as [|page good IH]; intros i buffers e st H.
  - simpl. unfold bind. simpl. rewrite Z.add_0_r. reflexivity.
  - inversion H as [|? ? Hp Hr]; subst.
    change ((page :: good) ++ ExtractionError :: rest)
      with (page :: (good ++ ExtractionError :: rest)).
    cbn [page_loop]. unfold bind.
    replace (i + Z.of_nat (length (page :: good)))%Z
      with (i + 1 + Z.of_nat (length good))%Z by (simpl length; lia).
    destruct page as [text| |]; [| |exfalso; apply Hp; reflexivity];
      cbn [extract_text]; rewrite IH by exact Hr;
      rewrite add_events_log; reflexivity.
Qed.

Lemma pages_split pages :
  Forall readable pages
  \/ exists good rest,
       pages = good ++ ExtractionError :: rest /\ Forall readable good.
Proof.
  induction pages as [|page rest [IH|[good [rest' [E G]]]]].
  - left. constructor.
  - destruct page as [text| |].
    + left. constructor; [discriminate|exact IH].
    + left. constructor; [discriminate|exact IH].
    + right. exists [], rest. split; [reflexivity|constructor].
  - destruct page as [text| |].
    + right. exists (Extracted text :: good), rest'. subst rest.
      split; [reflexivity|constructor; [discriminate|exact G]].
    + right. exists (ExtractedNone :: good), rest'. subst rest.
      split; [reflexivity|constructor; [discriminate|exact G]].
    + right. exists [], rest. split; [reflexivity|constructor].
Qed.

Ltac run_step :=
  cbv beta iota;
  cbn [negb app fst snd events txt_file index_file stdout add_events log init].

Ltac run_start H P :=
  unfold run, main, bind, path_exists, open_reader; rewrite H; run_step;
  rewrite P; run_step.

Lemma run_missing e :
  pdf_exists e = false ->
  run e = (Raised (SystemExit (py "PDF not found: " ++ pdf_path)),
           add_events [EvExists] (init e)).
Proof.
  intros H. unfold run, main, bind, path_exists. rewrite H. reflexivity.
Qed.

Lemma run_unreadable e :
  pdf_exists e = true -> pdf_pages e = None ->
  run e = (Raised ReaderError, add_events [EvExists; EvOpenReader] (init e)).
Proof. intros H P. run_start H P. reflexivity. Qed.

Lemma run_page_error e good rest :
  pdf_exists e = true ->
  pdf_pages e = Some (good ++ ExtractionError :: rest) ->
  Forall readable good ->
  run e = (Raised (PageError (1 + Z.of_nat (length good))),
           add_events (reading_events (good ++ [ExtractionError])) (init e)).
Proof.
  intros H P G. run_start H P.
  rewrite page_loop_error by exact G. reflexivity.
Qed.

Lemma run_txt_unwritable e pages :
  pdf_exists e = true -> pdf_pages e = Some pages -> Forall readable pages ->
  can_write e OutTxt = false ->
  run e = (Raised (WriteError OutTxt),
           {| txt_file := left_by_failure (failed_write e OutTxt) (txt_before e);
              index_file := index_before e;
              events := reading_events pages ++ [EvWriteFailed OutTxt];
              stdout := [] |}).
Proof.
  intros H P G W. run_start H P.
  rewrite page_loop_ok by exact G.
  unfold write_text. rewrite W. reflexivity.
Qed.

Lemma run_index_unwritable e pages :
  pdf_exists e = true -> pdf_pages e = Some pages -> Forall readable pages ->
  can_write e OutTxt = true -> can_write e OutIndex = false ->
  run e = (Raised (WriteError OutIndex),
           {| txt_file := Some (txt_content (fst (all_buffers pages)));
              index_file :=
                left_by_failure (failed_write e OutIndex) (index_before e);
              events := reading_events pages
                        ++ [EvWrite OutTxt (txt_content (fst (all_buffers pages)));
                            EvWriteFailed OutIndex];
              stdout := [] |}).
Proof.
  intros H P G W1 W2. run_start H P.
  rewrite page_loop_ok by exact G. fold (all_buffers pages).
  generalize (all_buffers pages) as buffers. intros buffers.
  unfold write_text. rewrite W1. run_step. rewrite W2. run_step.
  unfold reading_events. rewrite <- !app_assoc. reflexivity.
Qed.

Lemma run_success e pages :
  pdf_exists e = true -> pdf_pages e = Some pages -> Forall readable pages ->
  can_write e OutTxt = true -> can_write e OutIndex = true ->
  run e = (Ok tt,
           {| txt_file := Some (txt_content (fst (all_buffers pages)));
              index_file := Some (index_content (snd (all_buffers pages)));
              events := reading_events pages
                        ++ [EvWrite OutTxt (txt_content (fst (all_buffers pages)));
                            EvWrite OutIndex (index_content (snd (all_buffers pages)))];
              stdout := [py "Wrote: " ++ path_text e OutTxt;
                         py "Wrote: " ++ path_text e OutIndex;
                         py "Pages processed: "
                         ++ of_int (Z.of_nat (length pages))] |}).
Proof.
  intros H P G W1 W2. run_start H P.
  rewrite page_loop_ok by exact G. fold (all_buffers pages).
  generalize (all_buffers pages) as buffers. intros buffers.
  unfold write_text, print. rewrite W1. run_step. rewrite W2. run_step.
  unfold reading_events. rewrite <- !app_assoc. reflexivity.
Qed.

Lemma page_body_blank i page_text buffers :
  forallb isspace page_text = true -> page_body i page_text buffers = buffers.
Proof.
  intros H. unfold page_body. destruct buffers as [chunks index_hits].
  rewrite (strip_blank _ H). reflexivity.
Qed.

Lemma blank_page_readable page : blank_page page -> readable page.
Proof. intros H E. subst page. exact H. Qed.

Lemma collect_blank pages : forall i buffers,
  Forall blank_page pages -> collect i (map text_of pages) buffers = buffers.
Proof.
  induction pages as [|page rest IH]; intros i buffers H; [reflexivity|].
  inversion H as [|? ? Hp Hr]; subst. simpl.
  rewrite page_body_blank; [apply IH; exact Hr|].
  destruct page; [exact Hp|reflexivity|contradiction].
Qed.

Lemma reading_events_no_write pages ev :
  In ev (reading_events pages) -> ~ touches_file ev.
Proof.
  unfold reading_events.
  intros [H|[H|H]] [[f [c E]]|[f E]]; subst; try discriminate;
    apply in_map_iff in H as [p [H _]]; discriminate.
Qed.

Lemma split_at_write (before ws pre post : list event) w :
  (forall ev, In ev before -> ~ touches_file ev) -> touches_file w ->
  before ++ ws = pre ++ w :: post ->
  exists tail, pre = before ++ tail /\ ws = tail ++ w :: post.
Proof.
  revert pre. induction before as [|r before IH]; intros pre N W E.
  - exists pre. split; [reflexivity|exact E].
  - destruct pre as [|p pre].
    + simpl in E. injection E as E _. subst r.
      exfalso. apply (N w); [left; reflexivity|exact W].
    + simpl in E. injection E as E1 E2. subst p.
      destruct (IH pre) as [tail [T1 T2]]; [|exact W|exact E2|].
      * intros ev G. apply N. right. exact G.
      * exists tail. split; [simpl; f_equal; exact T1|exact T2].
Qed.

(** Every run, with what it returns and leaves behind. *)
Lemma run_outcome e :
  (pdf_exists e = false
   /\ run e = (Raised (SystemExit (py "PDF not found: " ++ pdf_path)),
               add_events [EvExists] (init e)))
  \/ (pdf_pages e = None
      /\ run e = (Raised ReaderError,
                  add_events [EvExists; EvOpenReader] (init e)))
  \/ (exists good rest,
        pdf_pages e = Some (good ++ ExtractionError :: rest)
        /\ run e = (Raised (PageError (1 + Z.of_nat (length good))),
                    add_events (reading_events (good ++ [ExtractionError]))
                               (init e)))
  \/ (exists pages,
        pdf_pages e = Some pages /\ Forall readable pages
        /\ run e
           = (Raised (WriteError OutTxt),
              {| txt_file :=
                   left_by_failure (failed_write e OutTxt) (txt_before e);
                 index_file := index_before e;
                 events := reading_events pages ++ [EvWriteFailed OutTxt];
                 stdout := [] |}))
  \/ (exists pages,
        pdf_pages e = Some pages /\ Forall readable pages
        /\ run e
           = (Raised (WriteError OutIndex),
              {| txt_file := Some (txt_content (fst (all_buffers pages)));
                 index_file :=
                   left_by_failure (failed_write e OutIndex) (index_before e);
                 events := reading_events pages
                           ++ [EvWrite OutTxt
                                 (txt_content (fst (all_buffers pages)));
                               EvWriteFailed OutIndex];
                 stdout := [] |}))
  \/ (exists pages,
        pdf_pages e = Some pages /\ Forall readable pages
        /\ run e
           = (Ok tt,
              {| txt_file := Some (txt_content (fst (all_buffers pages)));
                 index_file := Some (index_content (snd (all_buffers pages)));
                 events := reading_events pages
                           ++ [EvWrite OutTxt
                                 (txt_content (fst (all_buffers pages)));
                               EvWrite OutIndex
                                 (index_content (snd (all_buffers pages)))];
                 stdout := [py "Wrote: " ++ path_text e OutTxt;
                            py "Wrote: " ++ path_text e OutIndex;
                            py "Pages processed: "
                            ++ of_int (Z.of_nat (length pages))] |})).
Proof.
  destruct (pdf_exists e) eqn:X;
    [|left; split; [reflexivity|apply run_missing; exact X]].
  right. destruct (pdf_pages e) as [pages|] eqn:P;
    [|left; split; [reflexivity|apply run_unreadable; assumption]].
  right. destruct (pages_split pages) as [G|[good [rest [E G]]]].
  2:{ left. exists good, rest. subst pages.
      split; [reflexivity|apply (run_page_error e good rest); assumption]. }
  right. destruct (can_write e OutTxt) eqn:W1.
  2:{ left. exists pages. split; [reflexivity|]. split; [exact G|].
      apply run_txt_unwritable; assumption. }
  right. destruct (can_write e OutIndex) eqn:W2.
  - right. exists pages. split; [reflexivity|]. split; [exact G|].
    apply run_success; assumption.
  - left. exists pages. split; [reflexivity|]. split; [exact G|].
    apply run_index_unwritable; assumption.
Qed.

(** ** The run: claims *)

(** C3 (as amended). The fixed term list holds exactly 25 literal terms,
    all different. *)
Theorem index_terms_count : length index_terms = 25 /\ NoDup index_terms.
Proof.
  split; [reflexivity|].
  apply (NoDup_count_occ' str_eq_dec).
  intros x H.
  repeat (destruct H as [<-|H]; [vm_compute; reflexivity|]).
  destruct H.
Qed.

(** C3 as stated fails: the list does not hold 27 terms. *)
Lemma index_terms_count_not_27 : length index_terms <> 27.
Proof. discriminate. Qed.

(** C9. When every page is blank, and also when there is no page, the run
    succeeds and each output file holds exactly one newline. *)
Theorem blank_document_outputs (e : env) (pages : list extraction) :
  pdf_exists e = true -> pdf_pages e = Some pages ->
  can_write e OutTxt = true -> can_write e OutIndex = true ->
  Forall blank_page pages ->
  fst (run e) = Ok tt
  /\ txt_file (snd (run e)) = Some (py "\n")
  /\ index_file (snd (run e)) = Some (py "\n").
Proof.
  intros H P W1 W2 B.
  assert (G : Forall readable pages)
    by (eapply Forall_impl; [apply blank_page_readable|exact B]).
  rewrite (run_success e pages H P G W1 W2).
  unfold all_buffers. rewrite collect_blank by exact B.
  repeat split.
Qed.

Lemma blank_document_outputs_witness :
  fst (run blank_env) = Ok tt
  /\ txt_file (snd (run blank_env)) = Some (py "\n")
  /\ index_file (snd (run blank_env)) = Some (py "\n").
Proof.
  apply (blank_document_outputs blank_env
           [Extracted (py "  \n\t"); ExtractedNone; Extracted []]);
    try reflexivity.
  repeat constructor.
Defined.

Example zero_pages_outputs :
  run empty_env
  = (Ok tt,
     {| txt_file := Some (py "\n"); index_file := Some (py "\n");
        events := [EvExists; EvOpenReader;
                   EvWrite OutTxt (py "\n"); EvWrite OutIndex (py "\n")];
        stdout := [py "Wrote: out"; py "Wrote: out";
                   py "Pages processed: 0"] |}).
Proof. vm_compute. reflexivity. Qed.

(** C8. Without the PDF the run ends at once with a non-zero status: it
    has only tested the path, parsed nothing and left both output files as
    they were.  In every run, whatever creates or changes an output file,
    a write or a write that fails, comes after the extraction of every
    page, no extraction follows it, and what a write puts in the file is
    computed from the buffers of all pages; a run without such an event
    leaves both files as they were. *)
Theorem outputs_written_last :
  (forall e,
     pdf_exists e = false ->
     fst (run e) = Raised (SystemExit (py "PDF not found: " ++ pdf_path))
     /\ exit_status (fst (run e)) <> 0%Z
     /\ events (snd (run e)) = [EvExists]
     /\ txt_file (snd (run e)) = txt_before e
     /\ index_file (snd (run e)) = index_before e)
  /\ (forall e pre ev post,
        events (snd (run e)) = pre ++ ev :: post ->
        touches_file ev ->
        exists pages tail,
          pdf_pages e = Some pages
          /\ Forall readable pages
          /\ pre = reading_events pages ++ tail
          /\ (forall i, ~ In (EvExtract i) post)
          /\ (forall f content,
                ev = EvWrite f content ->
                content = match f with
                          | OutTxt => txt_content (fst (all_buffers pages))
                          | OutIndex => index_content (snd (all_buffers pages))
                          end))
  /\ (forall e,
        (forall ev, In ev (events (snd (run e))) -> ~ touches_file ev) ->
        txt_file (snd (run e)) = txt_before e
        /\ index_file (snd (run e)) = index_before e).
Proof.
  split; [|split].
  - intros e H. rewrite (run_missing e H). repeat split. discriminate.
  - intros e pre ev post E W.
    assert (NW : forall evs, (forall x, In x evs -> ~ touches_file x) ->
                 evs <> pre ++ ev :: post).
    { intros evs N Q. apply (N ev); [|exact W].
      rewrite Q. apply in_or_app. right. left. reflexivity. }
    destruct (run_outcome e)
      as [[_ R]|[[_ R]|[[good [rest [_ R]]]|[[pages [P [G R]]]|
          [[pages [P [G R]]]|[pages [P [G R]]]]]]]];
      rewrite R in E; cbn [snd events add_events init app] in E.
    + exfalso. revert E. apply NW.
      intros x [<-|[]] [[? [? Q]]|[? Q]]; discriminate.
    + exfalso. revert E. apply NW.
      intros x [<-|[<-|[]]] [[? [? Q]]|[? Q]]; discriminate.
    + exfalso. revert E. apply NW. apply reading_events_no_write.
    + exists pages.
      destruct (split_at_write _ _ _ _ _ (reading_events_no_write pages) W E)
        as [tail [T1 T2]]. exists tail.
      destruct tail as [|t [|t' tail]]; simpl in T2; inversion T2; subst;
        try (destruct tail; discriminate);
        repeat split; try assumption;
        [intros i Q; simpl in Q; intuition discriminate
        |intros f content Q; discriminate].
    + exists pages.
      destruct (split_at_write _ _ _ _ _ (reading_events_no_write pages) W E)
        as [tail [T1 T2]]. exists tail.
      destruct tail as [|t [|t' [|t'' tail]]]; simpl in T2; inversion T2; subst;
        try (destruct tail; discriminate);
        repeat split; try assumption;
        try (intros i Q; simpl in Q; intuition discriminate);
        intros f content Q; inversion Q; reflexivity.
    + exists pages.
      destruct (split_at_write _ _ _ _ _ (reading_events_no_write pages) W E)
        as [tail [T1 T2]]. exists tail.
      destruct tail as [|t [|t' [|t'' tail]]]; simpl in T2; inversion T2; subst;
        try (destruct tail; discriminate);
        repeat split; try assumption;
        try (intros i Q; simpl in Q; intuition discriminate);
        intros f content Q; inversion Q; reflexivity.
  - intros e N.
    destruct (run_outcome e)
      as [[_ R]|[[_ R]|[[good [rest [_ R]]]|[[pages [P [G R]]]|
          [[pages [P [G R]]]|[pages [P [G R]]]]]]]];
      rewrite R in *; try (split; reflexivity); exfalso; cbn [snd events] in N.
    + apply (N (EvWriteFailed OutTxt));
        [apply in_or_app; right; left; reflexivity|right; eexists; reflexivity].
    + apply (N (EvWriteFailed OutIndex));
        [apply in_or_app; right; right; left; reflexivity
        |right; eexists; reflexivity].
    + apply (N (EvWrite OutTxt (txt_content (fst (all_buffers pages)))));
        [apply in_or_app; right; left; reflexivity
        |left; eexists _, _; reflexivity].
Qed.

Lemma outputs_written_last_witness :
  (fst (run missing_env)
   = Raised (SystemExit (py "PDF not found: " ++ pdf_path))
   /\ exit_status (fst (run missing_env)) <> 0%Z
   /\ events (snd (run missing_env)) = [EvExists]
   /\ txt_file (snd (run missing_env)) = txt_before missing_env
   /\ index_file (snd (run missing_env)) = index_before missing_env)
  /\ (exists pages tail,
        pdf_pages one_page_env = Some pages
        /\ Forall readable pages
        /\ [EvExists; EvOpenReader; EvExtract 1] = reading_events pages ++ tail
        /\ (forall i,
              ~ In (EvExtract i)
                  [EvWrite OutIndex (py "Page 1: TreeWalker: TreeWalker\n")])
        /\ (forall f content,
              EvWrite OutTxt (py "=== Page 1 ===\n\nTreeWalker\n\n")
              = EvWrite f content ->
              content = match f with
                        | OutTxt => txt_content (fst (all_buffers pages))
                        | OutIndex => index_content (snd (all_buffers pages))
                        end))
  /\ (txt_file (snd (run missing_env)) = txt_before missing_env
      /\ index_file (snd (run missing_env)) = index_before missing_env).
Proof.
  split; [|split].
  - apply (proj1 outputs_written_last missing_env). reflexivity.
  - apply (proj1 (proj2 outputs_written_last) one_page_env
             [EvExists; EvOpenReader; EvExtract 1]
             (EvWrite OutTxt (py "=== Page 1 ===\n\nTreeWalker\n\n"))
             [EvWrite OutIndex (py "Page 1: TreeWalker: TreeWalker\n")]).
    + vm_compute. reflexivity.
    + left. eexists _, _. reflexivity.
  - apply (proj2 (proj2 outputs_written_last) missing_env).
    intros ev. vm_compute. intros [Q|[]] [[? [? W]]|[? W]]; subst; discriminate.
Defined.

(** ** The chunks *)

Lemma page_body_chunks i text chunks index_hits :
  fst (page_body i text (chunks, index_hits))
  = chunks ++ map chunk_of (kept_pages i [text]).
Proof.
  unfold page_body, kept_pages, nonblank. simpl.
  destruct (strip text); simpl; [rewrite app_nil_r|]; reflexivity.
Qed.

Lemma collect_chunks texts : forall i buffers,
  fst (collect i texts buffers)
  = fst buffers ++ map chunk_of (kept_pages i texts).
Proof.
  induction texts as [|text rest IH]; intros i [chunks index_hits].
  - simpl. rewrite app_nil_r. reflexivity.
  - cbn [collect]. rewrite IH, page_body_chunks.
    unfold kept_pages. cbn [enumerate filter fst snd].
    destruct (nonblank text); cbn [map app];
      rewrite <- ?app_assoc, ?app_nil_r; reflexivity.
Qed.

Lemma enumerate_lower_bound {A} (xs : list A) : forall i p,
  In p (enumerate i xs) -> (i <= fst p)%Z.
Proof.
  induction xs as [|x rest IH]; intros i p H; [destruct H|].
  destruct H as [<-|H]; [simpl; lia|].
  apply IH in H. lia.
Qed.

Lemma enumerate_ascending {A} (xs : list A) : forall i,
  StronglySorted Z.lt (map fst (enumerate i xs)).
Proof.
  induction xs as [|x rest IH]; intros i; [constructor|].
  simpl. constructor; [apply IH|].
  apply Forall_forall. intros k H.
  apply in_map_iff in H as [p [<- H]].
  apply enumerate_lower_bound in H. lia.
Qed.

Lemma filter_ascending {A} (keep : Z * A -> bool) (ps : list (Z * A)) :
  StronglySorted Z.lt (map fst ps) ->
  StronglySorted Z.lt (map fst (filter keep ps)).
Proof.
  induction ps as [|p rest IH]; intros H; [constructor|].
  simpl in H. inversion H as [|? ? Hs Hf]; subst.
  simpl. destruct (keep p); [|apply IH; exact Hs].
  simpl. constructor; [apply IH; exact Hs|].
  apply Forall_forall. intros k G.
  apply in_map_iff in G as [q [<- G]]. apply filter_In in G as [G _].
  rewrite Forall_forall in Hf. apply Hf. apply in_map. exact G.
Qed.

Lemma run_txt_file e pages :
  pdf_exists e = true -> pdf_pages e = Some pages -> Forall readable pages ->
  can_write e OutTxt = true ->
  txt_file (snd (run e)) = Some (txt_content (fst (all_buffers pages))).
Proof.
  intros H P G W1. destruct (can_write e OutIndex) eqn:W2.
  - rewrite (run_success e pages) by assumption. reflexivity.
  - rewrite (run_index_unwritable e pages) by assumption. reflexivity.
Qed.

Lemma to_int_normal z : Decimal.norm (Z.to_int z) = Z.to_int z.
Proof. rewrite <- DecimalZ.to_of, DecimalZ.of_to. reflexivity. Qed.

Lemma map_Chr_inj a : forall b, map Chr a = map Chr b -> a = b.
Proof.
  induction a as [|x a IH]; intros [|y b] H; try discriminate; [reflexivity|].
  simpl in H. injection H as -> H. f_equal. exact (IH b H).
Qed.

Lemma of_int_parses k :
  NilZero.int_of_string (NilZero.string_of_int (Z.to_int k))
  = Some (Z.to_int k).
Proof.
  apply NilZero.isi; intros Q;
    pose proof (to_int_normal k) as R; rewrite Q in R; discriminate R.
Qed.

Lemma decimal_of_int k numeral : is_decimal k numeral <-> numeral = of_int k.
Proof.
  unfold is_decimal, of_int. split.
  - intros [t [d [E [Pd [Nd V]]]]]. subst numeral. f_equal. f_equal.
    apply NilZero.sis in Pd. rewrite <- Pd. f_equal.
    rewrite <- V, DecimalZ.to_of. symmetry. exact Nd.
  - intros ->. exists (NilZero.string_of_int (Z.to_int k)), (Z.to_int k).
    split; [reflexivity|]. split; [apply of_int_parses|].
    split; [apply to_int_normal|apply DecimalZ.of_to].
Qed.

(** C7. The full-text file holds the chunks of the pages that are not
    blank, in ascending page order, each normalized text after its marker
    "\n\n=== Page {ordinal} ===\n\n", the whole stripped of leading
    whitespace and followed by one newline; the ordinal stands in the
    marker as its decimal numeral. *)
Theorem txt_file_content (e : env) (pages : list extraction) :
  pdf_exists e = true -> pdf_pages e = Some pages -> Forall readable pages ->
  can_write e OutTxt = true ->
  txt_file (snd (run e))
  = Some (lstrip
            (concat
               (map (fun p => py "\n\n=== Page " ++ of_int (fst p)
                              ++ py " ===\n\n" ++ normalize_text (snd p))
                    (kept_pages 1 (map text_of pages))))
          ++ py "\n")
  /\ StronglySorted Z.lt (map fst (kept_pages 1 (map text_of pages)))
  /\ (forall k numeral, is_decimal k numeral <-> numeral = of_int k).
Proof.
  intros H P G W1. split; [|split].
  - rewrite (run_txt_file e pages H P G W1).
    unfold all_buffers. rewrite collect_chunks. reflexivity.
  - apply filter_ascending, enumerate_ascending.
  - apply decimal_of_int.
Qed.

Lemma three_pages_readable : Forall readable three_pages.
Proof. repeat constructor; discriminate. Qed.

Lemma txt_file_content_witness :
  txt_file (snd (run three_page_env))
  = Some (py "=== Page 1 ===\n\nhello AutomationElement world\n\n\n=== Page 3 ===\n\nnothing of interest\n\n")
  /\ is_decimal 12 (py "12").
Proof.
  destruct (txt_file_content three_page_env three_pages
              eq_refl eq_refl three_pages_readable eq_refl) as [F [_ D]].
  split.
  - rewrite F. vm_compute. reflexivity.
  - apply D. vm_compute. reflexivity.
Defined.

(** ** The index of one page *)

Lemma find_from_first sub s : forall i,
  contains sub s = true ->
  exists off, find_from sub s i = (i + Z.of_nat off)%Z /\ first_match sub s off.
Proof.
  induction s as [|c rest IH]; intros i H.
  - simpl in H. rewrite orb_false_r in H.
    exists 0. simpl. rewrite H. split; [lia|].
    repeat split; [lia|exact H|intros j Hj; lia].
  - cbn [contains] in H. cbn [find_from].
    destruct (startswith sub (c :: rest)) eqn:E.
    + exists 0. split; [lia|]. repeat split; [simpl; lia|exact E|intros j Hj; lia].
    + simpl in H. destruct (IH (i + 1)%Z H) as [off [F [L [St N]]]].
      exists (S off). split; [rewrite F; lia|].
      repeat split; [simpl; lia|exact St|].
      intros [|j] Hj; [exact E|]. apply N. lia.
Qed.

Lemma find_from_absent sub s : forall i,
  contains sub s = false -> find_from sub s i = (-1)%Z.
Proof.
  induction s as [|c rest IH]; intros i H; cbn [contains] in H;
    apply orb_false_elim in H as [H1 H2]; cbn [find_from]; rewrite H1;
    [reflexivity|apply IH; exact H2].
Qed.

Lemma startswith_prefix p s : startswith p s = true <-> exists t, s = p ++ t.
Proof.
  revert s. induction p as [|a p IH]; intros s.
  - split; [exists s; reflexivity|reflexivity].
  - destruct s as [|b s]; simpl.
    + split; [discriminate|intros [t E]; discriminate].
    + split.
      * intros H. apply andb_prop in H as [H1 H2].
        apply char_eqb_true in H1. subst b.
        apply IH in H2 as [t ->]. exists t. reflexivity.
      * intros [t E]. injection E as -> ->.
        rewrite char_eqb_refl. apply IH. exists t. reflexivity.
Qed.

(** [sub in s] holds exactly when [sub] is a substring of [s]. *)
Lemma contains_substring sub s :
  contains sub s = true <-> exists a b, s = a ++ sub ++ b.
Proof.
  induction s as [|c rest IH]; cbn [contains].
  - rewrite orb_false_r, startswith_prefix. split.
    + intros [t E]. exists [], t. exact E.
    + intros [a [b E]]. destruct a; [exists b; exact E|discriminate].
  - split.
    + intros H. apply orb_prop in H as [H|H].
      * apply startswith_prefix in H as [t E]. exists [], t. exact E.
      * apply IH in H as [a [b ->]]. exists (c :: a), b. reflexivity.
    + intros [a [b E]]. apply orb_true_iff. destruct a as [|x a].
      * left. apply startswith_prefix. exists b. exact E.
      * right. injection E as _ E. apply IH. exists a, b. exact E.
Qed.

Lemma slice_window text off :
  slice text (Z.max 0 (Z.of_nat off - 80))
             (Z.min (len text) (Z.of_nat off + 160))
  = window text off.
Proof.
  unfold slice, window, len.
  replace (Z.to_nat (Z.max 0 (Z.of_nat off - 80))) with (off - 80) by lia.
  replace (Z.to_nat (Z.min (Z.of_nat (length text)) (Z.of_nat off + 160)))
    with (Nat.min (length text) (off + 160)) by lia.
  destruct (Nat.le_gt_cases (off + 160) (length text)) as [L|L].
  - rewrite Nat.min_r by exact L. reflexivity.
  - rewrite Nat.min_l by lia.
    rewrite !firstn_all2; [reflexivity| |]; rewrite length_skipn; lia.
Qed.

Lemma index_term_hit i page_text index_hits term :
  matches page_text term = true ->
  exists line,
    index_term i page_text (lower page_text) index_hits term
    = index_hits ++ [line]
    /\ hit_of i page_text term line.
Proof.
  unfold matches. intros H. unfold index_term. rewrite H.
  destruct (find_from_first _ _ 0%Z H) as [off [F M]].
  unfold find. rewrite F. rewrite Z.add_0_l.
  rewrite slice_window.
  change (py "\n") with [nl]. change (py " ") with [sp].
  rewrite replace_char_map.
  eexists. split; [reflexivity|]. exists off. split; [exact M|reflexivity].
Qed.

Lemma index_term_miss i page_text index_hits term :
  matches page_text term = false ->
  index_term i page_text (lower page_text) index_hits term = index_hits.
Proof. unfold matches, index_term. intros ->. reflexivity. Qed.

Lemma index_terms_loop i page_text (terms : list str) : forall index_hits,
  exists lines,
    fold_left (index_term i page_text (lower page_text)) terms index_hits
    = index_hits ++ lines
    /\ Forall2 (hit_of i page_text) (filter (matches page_text) terms) lines.
Proof.
  induction terms as [|term rest IH]; intros index_hits.
  - exists []. split; [simpl; rewrite app_nil_r; reflexivity|constructor].
  - cbn [fold_left filter]. destruct (matches page_text term) eqn:E.
    + destruct (index_term_hit i page_text index_hits term E) as [line [Q Hl]].
      rewrite Q. destruct (IH (index_hits ++ [line])) as [lines [F A]].
      exists (line :: lines). split.
      * rewrite F, <- app_assoc. reflexivity.
      * constructor; assumption.
    + rewrite index_term_miss by exact E. apply IH.
Qed.

Lemma index_terms_nodup : NoDup index_terms.
Proof.
  apply (NoDup_count_occ' str_eq_dec).
  intros x H.
  repeat (destruct H as [<-|H]; [vm_compute; reflexivity|]).
  destruct H.
Qed.

Lemma first_match_unique sub s a b :
  first_match sub s a -> first_match sub s b -> a = b.
Proof.
  intros [_ [Sa Na]] [_ [Sb Nb]].
  destruct (Nat.lt_trichotomy a b) as [L|[L|L]]; [|exact L|].
  - rewrite (Nb a L) in Sa. discriminate.
  - rewrite (Na b L) in Sb. discriminate.
Qed.

Lemma page_body_hits i raw chunks index_hits :
  nonblank raw = true ->
  snd (page_body i raw (chunks, index_hits))
  = fold_left (index_term i (normalize_text raw) (lower (normalize_text raw)))
              index_terms index_hits.
Proof.
  unfold nonblank, page_body. destruct (strip raw); [discriminate|reflexivity].
Qed.

(** On a page with ordinal [i] and normalized text [page_text], the term
    loop appends one line for each term of the list, in order, whose
    lowercased form occurs in the lowercased text, and nothing for the
    others; no term gives two lines.  The line is "Page {i}: {term}:
    {snippet}", the snippet being the text from 80 characters before to 160
    after the offset that the first match has in the lowercased text,
    clamped to the text, newlines turned into spaces, then stripped. *)
Lemma term_loop_lines (i : Z) (page_text : str) (index_hits : list str) :
  exists lines,
    fold_left (index_term i page_text (lower page_text)) index_terms index_hits
    = index_hits ++ lines
    /\ Forall2 (hit_of i page_text) (filter (matches page_text) index_terms) lines
    /\ NoDup (filter (matches page_text) index_terms)
    /\ (forall term,
          matches page_text term = true
          <-> exists a b, lower page_text = a ++ lower term ++ b).
Proof.
  destruct (index_terms_loop i page_text index_terms index_hits)
    as [lines [F A]].
  exists lines. split; [exact F|]. split; [exact A|]. split.
  - apply NoDup_filter, index_terms_nodup.
  - intros term. apply contains_substring.
Qed.

Example term_loop_lines_example :
  fold_left (index_term 7 (py "see\nOrCondition and andcondition\n")
                        (lower (py "see\nOrCondition and andcondition\n")))
            index_terms [py "before"]
  = [py "before";
     py "Page 7: Condition: see OrCondition and andcondition";
     py "Page 7: AndCondition: see OrCondition and andcondition";
     py "Page 7: OrCondition: see OrCondition and andcondition"].
Proof. vm_compute. reflexivity. Qed.

(** C1. The snippet is cut from the page text at the offset that the match
    has in the lowercased copy of it.  Where lowercasing lengthens the
    text the two offsets differ: on a page of 200 times U+0130 followed by
    " TreeWalker end", the term stands at offset 201 of the 216 characters
    of the normalized text, where the window around it reads 79 times
    U+0130 and " TreeWalker end"; [find] gives 401, and the hit is
    recorded with an empty snippet instead of the text around the match. *)
Theorem snippet_window_misaligned :
  normalize_text dotted_page = dotted_page ++ py "\n"
  /\ len (normalize_text dotted_page) = 216%Z
  /\ startswith (py "TreeWalker") (skipn 201 (normalize_text dotted_page))
     = true
  /\ strip (map (char_to nl sp) (window (normalize_text dotted_page) 201))
     = repeat IDot 79 ++ py " TreeWalker end"
  /\ find (lower (normalize_text dotted_page)) (lower (py "TreeWalker"))
     = 401%Z
  /\ snd (page_body 1 dotted_page ([], [])) = [py "Page 1: TreeWalker: "].
Proof. repeat split; vm_compute; reflexivity. Qed.

(** C5. A page whose extracted text is empty or only whitespace leaves
    both buffers as they are: no chunk, no marker, no hit.  For the three
    pages "hello AutomationElement world", "" and "  nothing  of interest  "
    the full text has the markers of pages 1 and 3 only, and the index holds
    the single hit of page 1 for "AutomationElement". *)
Theorem blank_page_skipped :
  (forall i page_text buffers,
     forallb isspace page_text = true ->
     page_body i page_text buffers = buffers)
  /\ all_buffers three_pages
     = ([py "\n\n=== Page 1 ===\n\nhello AutomationElement world\n";
         py "\n\n=== Page 3 ===\n\nnothing of interest\n"],
        [py "Page 1: AutomationElement: hello AutomationElement world"])
  /\ (forall chunks index_hits,
        snd (page_body 3 (py "  nothing  of interest  ") (chunks, index_hits))
        = index_hits)
  /\ (forall e,
        pdf_exists e = true -> pdf_pages e = Some three_pages ->
        can_write e OutTxt = true -> can_write e OutIndex = true ->
        fst (run e) = Ok tt
        /\ txt_file (snd (run e))
           = Some (py "=== Page 1 ===\n\nhello AutomationElement world\n\n\n=== Page 3 ===\n\nnothing of interest\n\n")
        /\ index_file (snd (run e))
           = Some (py "Page 1: AutomationElement: hello AutomationElement world\n")).
Proof.
  split; [exact page_body_blank|].
  split; [vm_compute; reflexivity|].
  split.
  - intros chunks index_hits.
    rewrite page_body_hits by (vm_compute; reflexivity).
    destruct (index_terms_loop 3 (normalize_text (py "  nothing  of interest  "))
                index_terms index_hits) as [lines [F A]].
    rewrite F.
    replace (filter (matches (normalize_text (py "  nothing  of interest  ")))
                    index_terms)
      with (@nil str) in A by (vm_compute; reflexivity).
    inversion A. apply app_nil_r.
  - intros e H P W1 W2.
    assert (G : Forall readable three_pages)
      by (repeat constructor; discriminate).
    rewrite (run_success e three_pages H P G W1 W2). cbn [fst snd txt_file index_file].
    split; [reflexivity|].
    split; apply f_equal; vm_compute; reflexivity.
Qed.

Lemma blank_page_skipped_witness :
  page_body 2 (py " \t\n") ([py "chunk"], [py "hit"]) = ([py "chunk"], [py "hit"])
  /\ (fst (run three_page_env) = Ok tt
      /\ txt_file (snd (run three_page_env))
         = Some (py "=== Page 1 ===\n\nhello AutomationElement world\n\n\n=== Page 3 ===\n\nnothing of interest\n\n")
      /\ index_file (snd (run three_page_env))
         = Some (py "Page 1: AutomationElement: hello AutomationElement world\n")).
Proof.
  split.
  - apply (proj1 blank_page_skipped). reflexivity.
  - apply (proj2 (proj2 (proj2 blank_page_skipped)) three_page_env);
      reflexivity.
Defined.


(** ** Ordering of strings and [sorted] *)

Lemma char_compare_refl a : Char.compare a a = Eq.
Proof. apply N.compare_refl. Qed.

Lemma char_compare_lt_trans a b c :
  Char.compare a b = Lt -> Char.compare b c = Lt -> Char.compare a c = Lt.
Proof.
  unfold Char.compare. rewrite !N.compare_lt_iff. apply N.lt_trans.
Qed.

Lemma str_compare_eq a : forall b, PyStr.compare a b = Eq <-> a = b.
Proof.
  induction a as [|x a IH]; intros [|y b]; simpl;
    try (split; [reflexivity|reflexivity]); try (split; discriminate).
  destruct (Char.compare x y) eqn:E.
  - apply char_compare_eq in E. subst y. rewrite IH.
    split; [intros ->; reflexivity|intros Q; injection Q; auto].
  - split; [discriminate|]. intros Q. injection Q as -> _.
    rewrite char_compare_refl in E. discriminate.
  - split; [discriminate|]. intros Q. injection Q as -> _.
    rewrite char_compare_refl in E. discriminate.
Qed.

Lemma str_compare_antisym a : forall b,
  PyStr.compare b a = CompOpp (PyStr.compare a b).
Proof.
  induction a as [|x a IH]; intros [|y b]; simpl; try reflexivity.
  rewrite (char_compare_antisym x y).
  destruct (Char.compare y x); simpl; [apply IH|reflexivity|reflexivity].
Qed.

Lemma str_compare_lt_trans a : forall b c,
  PyStr.compare a b = Lt -> PyStr.compare b c = Lt -> PyStr.compare a c = Lt.
Proof.
  induction a as [|x a IH]; intros [|y b] [|z c]; simpl; try discriminate;
    try reflexivity.
  destruct (Char.compare x y) eqn:Exy; try discriminate;
    destruct (Char.compare y z) eqn:Eyz; try discriminate; intros H1 H2.
  - apply char_compare_eq in Exy, Eyz. subst.
    rewrite char_compare_refl. exact (IH _ _ H1 H2).
  - apply char_compare_eq in Exy. subst. rewrite Eyz. reflexivity.
  - apply char_compare_eq in Eyz. subst. rewrite Exy. reflexivity.
  - rewrite (char_compare_lt_trans _ _ _ Exy Eyz). reflexivity.
Qed.

Lemma str_leb_cases a b :
  PyStr.leb a b = true <-> PyStr.compare a b = Lt \/ a = b.
Proof.
  unfold PyStr.leb. rewrite <- str_compare_eq.
  destruct (PyStr.compare a b); split; auto; try discriminate.
  intros [H|H]; discriminate.
Qed.

Lemma str_leb_total a b : PyStr.leb a b = true \/ PyStr.leb b a = true.
Proof.
  unfold PyStr.leb. rewrite (str_compare_antisym a b).
  destruct (PyStr.compare a b); simpl; auto.
Qed.

Lemma str_leb_false a b : PyStr.leb a b = false -> PyStr.compare b a = Lt.
Proof.
  unfold PyStr.leb. rewrite (str_compare_antisym a b).
  destruct (PyStr.compare a b); simpl; try discriminate. reflexivity.
Qed.

Lemma str_lt_irrefl a : PyStr.compare a a <> Lt.
Proof.
  replace (PyStr.compare a a) with Eq; [discriminate|].
  symmetry. apply str_compare_eq. reflexivity.
Qed.

Lemma str_le_trans a b c : str_le a b -> str_le b c -> str_le a c.
Proof.
  unfold str_le. rewrite !str_leb_cases.
  intros [H1| ->] [H2| ->]; auto.
  left. exact (str_compare_lt_trans _ _ _ H1 H2).
Qed.

Lemma str_le_antisym a b : str_le a b -> str_le b a -> a = b.
Proof.
  unfold str_le. rewrite !str_leb_cases.
  intros [H1|H1] [H2|H2]; auto.
  exfalso. apply (str_lt_irrefl a). exact (str_compare_lt_trans _ _ _ H1 H2).
Qed.

Lemma insort_perm x l : Permutation (insort x l) (x :: l).
Proof.
  induction l as [|y l IH]; simpl; [reflexivity|].
  destruct (PyStr.leb x y); [reflexivity|].
  rewrite IH. apply perm_swap.
Qed.

Lemma sorted_perm l : Permutation (sorted l) l.
Proof.
  induction l as [|x l IH]; simpl; [constructor|].
  rewrite insort_perm. constructor. exact IH.
Qed.

Lemma insort_ordered x l :
  StronglySorted str_le l -> StronglySorted str_le (insort x l).
Proof.
  induction l as [|y l IH]; intros H; simpl.
  - constructor; constructor.
  - inversion H as [|? ? Hs Hf]; subst.
    destruct (PyStr.leb x y) eqn:E.
    + constructor; [exact H|]. constructor; [exact E|].
      eapply Forall_impl; [|exact Hf]. intros z. apply str_le_trans. exact E.
    + constructor; [apply IH; exact Hs|].
      apply Forall_forall. intros z G.
      apply (Permutation_in _ (insort_perm x l)) in G as [<-|G].
      * apply str_leb_cases. left. apply str_leb_false. exact E.
      * rewrite Forall_forall in Hf. apply Hf. exact G.
Qed.

Lemma sorted_ordered l : StronglySorted str_le (sorted l).
Proof.
  induction l as [|x l IH]; simpl; [constructor|].
  apply insort_ordered. exact IH.
Qed.

Lemma ordered_unique l1 : forall l2,
  Permutation l1 l2 -> StronglySorted str_le l1 -> StronglySorted str_le l2 ->
  l1 = l2.
Proof.
  induction l1 as [|a l1 IH]; intros l2 P S1 S2.
  - apply Permutation_nil in P. subst. reflexivity.
  - destruct l2 as [|b l2];
      [apply Permutation_sym, Permutation_nil in P; discriminate|].
    inversion S1 as [|? ? S1' F1]; inversion S2 as [|? ? S2' F2]; subst.
    rewrite Forall_forall in F1, F2.
    assert (E : a = b).
    { assert (Ia : In a (b :: l2))
        by (apply (Permutation_in _ P); left; reflexivity).
      assert (Ib : In b (a :: l1))
        by (apply (Permutation_in _ (Permutation_sym P)); left; reflexivity).
      destruct Ia as [Ia|Ia]; [auto|]. destruct Ib as [Ib|Ib]; [auto|].
      apply str_le_antisym; [apply F1; exact Ib|apply F2; exact Ia]. }
    subst b. f_equal. apply IH; try assumption.
    exact (Permutation_cons_inv P).
Qed.

(** [sorted] does not depend on the order in which a set is enumerated. *)
Lemma sorted_any_order l1 l2 : Permutation l1 l2 -> sorted l1 = sorted l2.
Proof.
  intros P. apply ordered_unique; try apply sorted_ordered.
  rewrite !sorted_perm. exact P.
Qed.

Lemma strict_of_ordered l :
  NoDup l -> StronglySorted str_le l -> StronglySorted str_lt l.
Proof.
  induction l as [|a l IH]; intros N S; [constructor|].
  inversion N as [|? ? Na Nl]; inversion S as [|? ? Sl F]; subst.
  constructor; [apply IH; assumption|].
  rewrite Forall_forall in *. intros z G.
  destruct (proj1 (str_leb_cases a z) (F z G)) as [H|H]; [exact H|].
  subst z. contradiction.
Qed.

Lemma ordered_of_strict l : StronglySorted str_lt l -> StronglySorted str_le l.
Proof.
  induction 1 as [|a l S IH F]; constructor; [exact IH|].
  eapply Forall_impl; [|exact F]. intros z H.
  apply str_leb_cases. left. exact H.
Qed.

Lemma strict_nodup l : StronglySorted str_lt l -> NoDup l.
Proof.
  induction 1 as [|a l S IH F]; constructor; [|exact IH].
  intros G. rewrite Forall_forall in F. exact (str_lt_irrefl a (F a G)).
Qed.

Lemma sorted_set_spec index_hits :
  (forall h, In h (sorted (py_set index_hits)) <-> In h index_hits)
  /\ StronglySorted str_lt (sorted (py_set index_hits))
  /\ forall others,
       (forall h, In h others <-> In h index_hits) ->
       StronglySorted str_lt others ->
       others = sorted (py_set index_hits).
Proof.
  assert (I : forall h, In h (sorted (py_set index_hits)) <-> In h index_hits).
  { intros h. unfold py_set. rewrite <- (nodup_In str_eq_dec index_hits h).
    split; apply Permutation_in;
      [apply sorted_perm|apply Permutation_sym, sorted_perm]. }
  assert (N : NoDup (sorted (py_set index_hits))).
  { apply (Permutation_NoDup (Permutation_sym (sorted_perm _))).
    apply NoDup_nodup. }
  split; [exact I|]. split.
  - apply strict_of_ordered; [exact N|apply sorted_ordered].
  - intros others Io So. apply ordered_unique.
    + apply NoDup_Permutation; [apply strict_nodup; exact So|exact N|].
      intros h. rewrite Io, I. reflexivity.
    + apply ordered_of_strict. exact So.
    + apply sorted_ordered.
Qed.

Lemma run_index_file e pages :
  pdf_exists e = true -> pdf_pages e = Some pages -> Forall readable pages ->
  can_write e OutTxt = true -> can_write e OutIndex = true ->
  index_file (snd (run e)) = Some (index_content (snd (all_buffers pages))).
Proof.
  intros H P G W1 W2.
  rewrite (run_success e pages) by assumption. reflexivity.
Qed.

Lemma join_terminated line rest :
  join [nl] (line :: rest) ++ [nl]
  = concat (map (fun l => l ++ [nl]) (line :: rest)).
Proof.
  revert line. induction rest as [|next rest IH]; intros line.
  - simpl. rewrite app_nil_r. reflexivity.
  - change (join [nl] (line :: next :: rest))
      with (line ++ [nl] ++ join [nl] (next :: rest)).
    rewrite <- !app_assoc, IH. cbn [map concat].
    rewrite <- !app_assoc. reflexivity.
Qed.

(** C6. The index file holds the hit strings without duplicates, in
    strictly increasing order of the rendered strings compared character by
    character (so "Page 10: ..." comes before "Page 2: ..."), joined by
    single newlines and followed by one newline: every line is followed by
    one newline, and a file without lines is a single newline.  These
    lines are the only list with that content and order. *)
Theorem index_file_content (e : env) (pages : list extraction) :
  pdf_exists e = true -> pdf_pages e = Some pages -> Forall readable pages ->
  can_write e OutTxt = true -> can_write e OutIndex = true ->
  exists lines,
    index_file (snd (run e))
    = Some (match lines with
            | [] => py "\n"
            | _ :: _ => concat (map (fun line => line ++ py "\n") lines)
            end)
    /\ (forall h, In h lines <-> In h (snd (all_buffers pages)))
    /\ StronglySorted (fun a b => PyStr.compare a b = Lt) lines
    /\ (forall others,
          (forall h, In h others <-> In h (snd (all_buffers pages))) ->
          StronglySorted (fun a b => PyStr.compare a b = Lt) others ->
          others = lines)
    /\ sorted (py_set [py "Page 2: Condition: x"; py "Page 10: Condition: x";
                       py "Page 2: Condition: x"])
       = [py "Page 10: Condition: x"; py "Page 2: Condition: x"].
Proof.
  intros H P G W1 W2.
  exists (sorted (py_set (snd (all_buffers pages)))).
  destruct (sorted_set_spec (snd (all_buffers pages))) as [I [S U]].
  split.
  { rewrite (run_index_file e pages H P G W1 W2). f_equal.
    unfold index_content. change (py "\n") with [nl].
    destruct (sorted (py_set (snd (all_buffers pages)))) as [|line rest];
      [reflexivity|apply join_terminated]. }
  split; [exact I|]. split; [exact S|]. split; [exact U|].
  vm_compute. reflexivity.
Qed.

Lemma ten_pages_readable : Forall readable ten_pages.
Proof. repeat constructor; discriminate. Qed.

Lemma ten_pages_hits :
  snd (all_buffers ten_pages)
  = [py "Page 2: Condition: Condition"; py "Page 10: Condition: a Condition"].
Proof. vm_compute. reflexivity. Qed.

Lemma index_file_content_witness :
  index_file (snd (run ten_page_env))
  = Some (py "Page 10: Condition: a Condition\nPage 2: Condition: Condition\n").
Proof.
  destruct (index_file_content ten_page_env ten_pages
              eq_refl eq_refl ten_pages_readable eq_refl eq_refl)
    as [lines [F [_ [_ [U _]]]]].
  rewrite ten_pages_hits in U.
  rewrite <- (U [py "Page 10: Condition: a Condition";
                 py "Page 2: Condition: Condition"]) in F.
  - exact F.
  - intros h. simpl. tauto.
  - repeat constructor; vm_compute; reflexivity.
Defined.

(** ** More on the normalizer *)

Lemma solid_app a b : solid (a ++ b) = solid a ++ solid b.
Proof. apply filter_app. Qed.

Lemma solid_blank s : forallb isspace s = true -> solid s = [].
Proof.
  induction s as [|c s IH]; [reflexivity|].
  simpl. intros H. apply andb_prop in H as [W H].
  rewrite W. simpl. apply IH. exact H.
Qed.

Lemma solid_nil_blank s : solid s = [] -> forallb isspace s = true.
Proof.
  induction s as [|c s IH]; [reflexivity|].
  simpl. destruct (isspace c); simpl; [exact IH|discriminate].
Qed.

Lemma solid_cons_space c s : isspace c = true -> solid (c :: s) = solid s.
Proof. intros W. simpl. rewrite W. reflexivity. Qed.

Lemma hspace_isspace c : Re.hspace c = true -> isspace c = true.
Proof. intros H. destruct (hspace_cases c H); subst; reflexivity. Qed.

Lemma newline_isspace c : Re.newline c = true -> isspace c = true.
Proof. intros H. apply newline_true in H. subst. reflexivity. Qed.

Lemma unify_solid s : solid (NormSpec.unify_line_endings s) = solid s.
Proof.
  induction s as [s IH] using str_len_ind.
  destruct s as [|c rest]; [reflexivity|].
  cbn [NormSpec.unify_line_endings]. destruct (Char.eqb c cr) eqn:E.
  - apply char_eqb_true in E. subst c.
    rewrite !solid_cons_space by reflexivity.
    destruct rest as [|c' rest']; [reflexivity|].
    destruct (Char.eqb c' nl) eqn:E'.
    + apply char_eqb_true in E'. subst c'.
      rewrite solid_cons_space by reflexivity. apply IH. simpl. lia.
    + apply IH. simpl. lia.
  - simpl. rewrite IH by (simpl; lia). reflexivity.
Qed.

Lemma squeeze_solid s : solid (NormSpec.squeeze_hspace s) = solid s.
Proof.
  induction s as [|c rest IH]; [reflexivity|].
  cbn [NormSpec.squeeze_hspace]. destruct (Re.hspace c) eqn:E.
  - rewrite (solid_cons_space c) by (apply hspace_isspace; exact E).
    destruct rest as [|c' r]; [reflexivity|].
    destruct (Re.hspace c'); [exact IH|].
    rewrite solid_cons_space by reflexivity. exact IH.
  - simpl. rewrite IH. reflexivity.
Qed.

Lemma cap_solid s : solid (NormSpec.cap_blank_lines s) = solid s.
Proof.
  induction s as [|c rest IH]; [reflexivity|].
  assert (K : solid (c :: NormSpec.cap_blank_lines rest) = solid (c :: rest))
    by (simpl; rewrite IH; reflexivity).
  cbn [NormSpec.cap_blank_lines]. destruct (Re.newline c) eqn:E; [|exact K].
  destruct rest as [|c1 [|c2 r]]; try exact K.
  destruct (Re.newline c1 && Re.newline c2); [|exact K].
  rewrite (solid_cons_space c) by (apply newline_isspace; exact E). exact IH.
Qed.

Lemma strip_solid s : solid (strip s) = solid s.
Proof.
  destruct (strip_infix s) as [a [b [E [Fa Fb]]]].
  rewrite E at 2. rewrite !solid_app, (solid_blank a Fa), (solid_blank b Fb).
  rewrite app_nil_r. reflexivity.
Qed.

Lemma strip_nil_blank s : strip s = [] <-> forallb isspace s = true.
Proof.
  split; [|apply strip_blank].
  intros H. apply solid_nil_blank. rewrite <- strip_solid, H. reflexivity.
Qed.

Lemma core_solid text : solid (normalize_core text) = solid text.
Proof.
  unfold normalize_core.
  rewrite strip_solid, cap_solid, squeeze_solid, unify_solid. reflexivity.
Qed.

Lemma normalize_text_keeps_solid_aux text :
  solid (normalize_text text) = solid text.
Proof.
  rewrite normalize_text_core, solid_app, core_solid.
  apply app_nil_r.
Qed.

(** X1. Normalizing changes whitespace only: the characters that are not
    whitespace come out the same and in the same order. *)
Theorem normalize_text_keeps_solid (text : str) :
  solid (normalize_text text) = solid text.
Proof.
  rewrite normalize_text_core, solid_app, core_solid.
  apply app_nil_r.
Qed.

Lemma unify_length s : length (NormSpec.unify_line_endings s) <= length s.
Proof.
  induction s as [s IH] using str_len_ind.
  destruct s as [|c rest]; [simpl; lia|].
  cbn [NormSpec.unify_line_endings]. destruct (Char.eqb c cr).
  - destruct rest as [|c' rest']; [simpl; lia|].
    destruct (Char.eqb c' nl).
    + specialize (IH rest'). simpl in *. lia.
    + specialize (IH (c' :: rest')). simpl in *. lia.
  - specialize (IH rest). simpl in *. lia.
Qed.

Lemma squeeze_length s : length (NormSpec.squeeze_hspace s) <= length s.
Proof.
  induction s as [|c rest IH]; [simpl; lia|].
  cbn [NormSpec.squeeze_hspace]. destruct (Re.hspace c).
  - destruct rest as [|c' r]; [simpl; lia|].
    destruct (Re.hspace c'); simpl in *; lia.
  - simpl. lia.
Qed.

Lemma cap_length s : length (NormSpec.cap_blank_lines s) <= length s.
Proof.
  induction s as [|c rest IH]; [simpl; lia|].
  assert (K : length (c :: NormSpec.cap_blank_lines rest) <= length (c :: rest))
    by (simpl; lia).
  cbn [NormSpec.cap_blank_lines]. destruct (Re.newline c); [|exact K].
  destruct rest as [|c1 [|c2 r]]; try exact K.
  destruct (Re.newline c1 && Re.newline c2); [|exact K].
  simpl in *. lia.
Qed.

Lemma strip_length s : length (strip s) <= length s.
Proof.
  destruct (strip_infix s) as [a [b [E _]]].
  rewrite E at 2. rewrite !length_app. lia.
Qed.

(** X2. The normalized text is never empty and is at most one character
    longer than the input. *)
Theorem normalize_text_length (text : str) :
  1 <= length (normalize_text text) <= length text + 1.
Proof.
  rewrite normalize_text_core, length_app. simpl length.
  unfold normalize_core.
  pose proof (strip_length
                (NormSpec.cap_blank_lines
                   (NormSpec.squeeze_hspace
                      (NormSpec.unify_line_endings text)))).
  pose proof (cap_length
                (NormSpec.squeeze_hspace (NormSpec.unify_line_endings text))).
  pose proof (squeeze_length (NormSpec.unify_line_endings text)).
  pose proof (unify_length text).
  lia.
Qed.

Lemma nonblank_solid text : nonblank text = false <-> solid text = [].
Proof.
  unfold nonblank. split.
  - destruct (strip text) eqn:E; [|discriminate]. intros _.
    apply solid_blank, strip_nil_blank. exact E.
  - intros H. apply solid_nil_blank, strip_nil_blank in H. rewrite H.
    reflexivity.
Qed.

Lemma skipped_newline text :
  nonblank text = false <-> normalize_text text = py "\n".
Proof.
  rewrite nonblank_solid, normalize_text_core.
  change (py "\n") with ([] ++ [nl]). split.
  - intros H. f_equal. rewrite <- core_solid in H.
    apply solid_nil_blank, strip_nil_blank in H.
    rewrite strip_fixed in H by apply core_trimmed. exact H.
  - intros H. apply app_inv_tail in H.
    rewrite <- core_solid, H. reflexivity.
Qed.

Lemma solid_some s :
  solid s <> [] <-> exists c, In c s /\ isspace c = false.
Proof.
  split.
  - intros H. destruct (solid s) as [|c r] eqn:E; [congruence|].
    assert (G : In c (solid s)) by (rewrite E; left; reflexivity).
    apply filter_In in G as [G W]. exists c. split; [exact G|].
    destruct (isspace c); [discriminate|reflexivity].
  - intros [c [G W]] E.
    assert (Q : In c (solid s)) by (apply filter_In; rewrite W; auto).
    rewrite E in Q. exact Q.
Qed.

(** X3. The page loop skips a page exactly when normalizing its text
    would leave nothing but the final newline, and the chunk of a page it
    keeps always holds some character that is not whitespace. *)
Theorem skipped_iff_normalizes_to_newline (text : str) :
  (nonblank text = false <-> normalize_text text = py "\n")
  /\ (nonblank text = true
      <-> exists c, In c (normalize_text text) /\ isspace c = false).
Proof.
  split; [apply skipped_newline|].
  rewrite <- solid_some, normalize_text_keeps_solid_aux.
  pose proof (nonblank_solid text) as N.
  destruct (nonblank text); split; try congruence.
  - intros _ E. apply N in E. discriminate.
  - intros H. exfalso. apply H. apply N. reflexivity.
Qed.

(** ** More on the term loop *)

Lemma first_match_fits sub s off :
  first_match sub s off -> off + length sub <= length s.
Proof.
  intros [L [St _]]. apply startswith_prefix in St as [t E].
  apply (f_equal (@length _)) in E.
  rewrite length_skipn, length_app in E. lia.
Qed.

(** X4. [find] and [in] agree: where [sub in s] holds, [s.find(sub)] is the
    offset of an occurrence that lies within [s], never -1; where it does
    not hold, [find] gives -1. *)
Theorem find_agrees_with_in (s sub : str) :
  (contains sub s = true ->
   (0 <= find s sub)%Z
   /\ (find s sub + len sub <= len s)%Z
   /\ startswith sub (skipn (Z.to_nat (find s sub)) s) = true)
  /\ (contains sub s = false -> find s sub = (-1)%Z).
Proof.
  split.
  - intros H. destruct (find_from_first sub s 0%Z H) as [off [F M]].
    unfold find. rewrite F, Z.add_0_l.
    pose proof (first_match_fits _ _ _ M) as B.
    destruct M as [_ [St _]]. unfold len.
    rewrite Nat2Z.id. repeat split; [lia|lia|exact St].
  - apply find_from_absent.
Qed.

Lemma find_agrees_with_in_witness :
  ((0 <= find (py "a treewalker") (py "tree"))%Z
   /\ (find (py "a treewalker") (py "tree") + len (py "tree")
       <= len (py "a treewalker"))%Z
   /\ startswith (py "tree")
        (skipn (Z.to_nat (find (py "a treewalker") (py "tree")))
               (py "a treewalker")) = true)
  /\ find (py "a treewalker") (py "Tree") = (-1)%Z.
Proof.
  split.
  - apply (proj1 (find_agrees_with_in (py "a treewalker") (py "tree"))).
    reflexivity.
  - apply (proj2 (find_agrees_with_in (py "a treewalker") (py "Tree"))).
    reflexivity.
Defined.

Lemma index_term_snippet i page_text index_hits term :
  matches page_text term = true ->
  exists off,
    first_match (lower term) (lower page_text) off
    /\ find (lower page_text) (lower term) = Z.of_nat off
    /\ index_term i page_text (lower page_text) index_hits term
       = index_hits ++ [py "Page " ++ of_int i ++ py ": " ++ term ++ py ": "
                        ++ snippet_at page_text off].
Proof.
  unfold matches. intros H. unfold index_term. rewrite H.
  destruct (find_from_first _ _ 0%Z H) as [off [F M]].
  unfold find in *. rewrite F, Z.add_0_l.
  exists off. split; [exact M|]. split; [reflexivity|].
  rewrite slice_window.
  change (py "\n") with [nl]. change (py " ") with [sp].
  rewrite replace_char_map. reflexivity.
Qed.

Lemma window_length text off : length (window text off) <= 240.
Proof.
  unfold window.
  pose proof (firstn_le_length (off + 160 - (off - 80))
                (skipn (off - 80) text)).
  lia.
Qed.

Lemma snippet_shape text off :
  length (snippet_at text off) <= 240
  /\ ~ In nl (snippet_at text off)
  /\ trimmed (snippet_at text off).
Proof.
  unfold snippet_at. split; [|split].
  - pose proof (strip_length (map (char_to nl sp) (window text off))) as L.
    rewrite length_map in L. pose proof (window_length text off). lia.
  - intros H. apply in_strip, in_map_iff in H as [c [E _]].
    unfold char_to in E. destruct (Char.eqb c nl) eqn:Q.
    + discriminate.
    + subst c. rewrite char_eqb_refl in Q. discriminate.
  - apply strip_trimmed.
Qed.

(** X5. The snippet of a hit is at most 240 characters long, holds no
    newline and neither starts nor ends with whitespace. *)
Theorem hit_snippet_shape (i : Z) (page_text term : str)
    (index_hits : list str) :
  matches page_text term = true ->
  exists snippet,
    index_term i page_text (lower page_text) index_hits term
    = index_hits ++ [py "Page " ++ of_int i ++ py ": " ++ term ++ py ": "
                     ++ snippet]
    /\ length snippet <= 240
    /\ ~ In nl snippet
    /\ lstrip snippet = snippet /\ rstrip snippet = snippet.
Proof.
  intros H.
  destruct (index_term_snippet i page_text index_hits term H)
    as [off [_ [_ E]]].
  exists (snippet_at page_text off). split; [exact E|].
  destruct (snippet_shape page_text off) as [L [N [T1 T2]]]. auto.
Qed.

Lemma hit_snippet_shape_witness :
  exists snippet,
    index_term 4 (py "x\nTreeWalker\ny") (lower (py "x\nTreeWalker\ny"))
               [] (py "TreeWalker")
    = [] ++ [py "Page " ++ of_int 4 ++ py ": " ++ py "TreeWalker" ++ py ": "
             ++ snippet]
    /\ length snippet <= 240
    /\ ~ In nl snippet
    /\ lstrip snippet = snippet /\ rstrip snippet = snippet.
Proof.
  apply (hit_snippet_shape 4 (py "x\nTreeWalker\ny") (py "TreeWalker") []).
  reflexivity.
Defined.

Lemma lower_one_solid c : isspace (lower_one c) = false -> isspace c = false.
Proof.
  destruct c as [a| |]; [|reflexivity|reflexivity].
  destruct a as [[|] [|] [|] [|] [|] [|] [|] [|]];
    intros H; try reflexivity; discriminate H.
Qed.

Lemma lower_length_ge s : length s <= length (lower s).
Proof.
  induction s as [|c s IH]; [simpl; lia|].
  unfold lower in *. cbn [flat_map]. rewrite length_app.
  destruct c; simpl; lia.
Qed.

Lemma lower_same_length s : length (lower s) = length s <-> ~ In IDot s.
Proof.
  induction s as [|c s IH]; [simpl; tauto|].
  pose proof (lower_length_ge s) as G.
  unfold lower in *. cbn [flat_map]. rewrite length_app.
  destruct c; simpl in *; split; intros H.
  - intros [Q|Q]; [discriminate|]. apply IH; [lia|exact Q].
  - f_equal. apply IH. tauto.
  - lia.
  - exfalso. apply H. left. reflexivity.
  - intros [Q|Q]; [discriminate|]. apply IH; [lia|exact Q].
  - f_equal. apply IH. tauto.
Qed.

Lemma lower_map s : ~ In IDot s -> lower s = map lower_one s.
Proof.
  induction s as [|c s IH]; intros H; [reflexivity|].
  unfold lower in *. cbn [flat_map map].
  rewrite IH by (intros Q; apply H; right; exact Q).
  destruct c; [reflexivity| |reflexivity].
  exfalso. apply H. left. reflexivity.
Qed.

Lemma lstrip_app_solid x c z :
  isspace c = false -> lstrip (x ++ c :: z) = lstrip x ++ c :: z.
Proof.
  intros W. induction x as [|a x IH]; simpl; [rewrite W; reflexivity|].
  destruct (isspace a); [exact IH|reflexivity].
Qed.

Lemma rstrip_app_solid w d y :
  isspace d = false -> rstrip ((w ++ [d]) ++ y) = (w ++ [d]) ++ rstrip y.
Proof.
  intros W. induction w as [|a w IH].
  - simpl. rewrite W. destruct (rstrip y); reflexivity.
  - change (((a :: w) ++ [d]) ++ y) with (a :: ((w ++ [d]) ++ y)).
    cbn [rstrip]. rewrite IH.
    destruct ((w ++ [d]) ++ rstrip y) eqn:E; [destruct w; discriminate|].
    simpl. rewrite <- E. reflexivity.
Qed.

Lemma strip_around x m y :
  m <> [] -> (forall c, In c m -> isspace c = false) ->
  strip (x ++ m ++ y) = lstrip x ++ m ++ rstrip y.
Proof.
  intros N P. unfold strip.
  destruct m as [|c m']; [congruence|].
  change (x ++ (c :: m') ++ y) with (x ++ c :: (m' ++ y)).
  rewrite lstrip_app_solid by (apply P; left; reflexivity).
  change (lstrip x ++ c :: m' ++ y) with (lstrip x ++ (c :: m') ++ y).
  destruct (exists_last N) as [w [d E]]. rewrite E in *.
  replace (lstrip x ++ (w ++ [d]) ++ y)
    with (((lstrip x ++ w) ++ [d]) ++ y)
    by (rewrite <- !app_assoc; reflexivity).
  rewrite rstrip_app_solid; [rewrite <- !app_assoc; reflexivity|].
  apply P. apply in_or_app. right. left. reflexivity.
Qed.

Lemma window_around text off m t :
  off <= length text -> skipn off text = m ++ t -> length m <= 160 ->
  window text off
  = skipn (off - 80) (firstn off text) ++ m ++ firstn (160 - length m) t.
Proof.
  intros L E M. unfold window.
  assert (Lp : length (firstn off text) = off) by (rewrite length_firstn; lia).
  assert (Ht : text = firstn off text ++ m ++ t)
    by (rewrite <- E; symmetry; apply firstn_skipn).
  remember (firstn off text) as before eqn:Hb. clear Hb.
  rewrite Ht. clear Ht E L.
  rewrite skipn_app, Lp.
  replace (off - 80 - off) with 0 by lia. cbn [skipn].
  rewrite firstn_app, length_skipn, Lp.
  rewrite firstn_all2 by (rewrite length_skipn, Lp; lia).
  replace (off + 160 - (off - 80) - (off - (off - 80))) with 160 by lia.
  rewrite firstn_app, (firstn_all2 m) by exact M. reflexivity.
Qed.

Lemma char_to_fixed a b m : ~ In a m -> map (char_to a b) m = m.
Proof.
  induction m as [|c m IH]; intros H; [reflexivity|].
  simpl. rewrite IH by (intros G; apply H; right; exact G).
  unfold char_to. destruct (Char.eqb c a) eqn:E; [|reflexivity].
  apply char_eqb_true in E. subst c. exfalso. apply H. left. reflexivity.
Qed.

Lemma snippet_shows_term text term off :
  length (lower text) = length text ->
  lower term <> [] ->
  (forall c, In c (lower term) -> isspace c = false) ->
  length (lower term) <= 160 ->
  first_match (lower term) (lower text) off ->
  matches (snippet_at text off) term = true.
Proof.
  intros K N P Lt M. apply lower_same_length in K.
  pose proof (first_match_fits _ _ _ M) as B.
  destruct M as [L [St _]]. rewrite (lower_map text K) in *.
  rewrite length_map in L, B.
  apply startswith_prefix in St as [t E].
  rewrite skipn_map in E. apply map_eq_app in E as [m [t' [E [Em Et]]]].
  assert (Lm : length m = length (lower term)).
  { rewrite <- Em. rewrite length_map. reflexivity. }
  assert (Im : forall c, In c m -> In c text).
  { intros c G. rewrite <- (firstn_skipn off text), E.
    apply in_or_app. right. apply in_or_app. left. exact G. }
  assert (Pm : forall c, In c m -> isspace c = false).
  { intros c G. apply lower_one_solid, P. rewrite <- Em.
    apply in_map. exact G. }
  assert (Nm : m <> []).
  { intros ->. apply N. rewrite <- Em. reflexivity. }
  assert (Km : lower m = lower term).
  { rewrite lower_map; [exact Em|]. intros Q. apply K, Im, Q. }
  unfold snippet_at.
  rewrite (window_around text off m t' L E) by lia.
  rewrite !map_app, (char_to_fixed nl sp m).
  2:{ intros G. apply Pm in G. discriminate. }
  rewrite strip_around by assumption.
  unfold matches. apply contains_substring.
  unfold lower in *. rewrite !flat_map_app, Km. eexists _, _. reflexivity.
Qed.

Lemma index_terms_shown : forallb shown_term index_terms = true.
Proof. vm_compute. reflexivity. Qed.

(** X6. On a page whose text keeps its length when lowercased, the snippet
    of the hit of every term of the list shows the term itself: the term
    occurs in the snippet, case-insensitively. *)
Theorem hit_snippet_shows_term (i : Z) (page_text term : str)
    (index_hits : list str) :
  length (lower page_text) = length page_text ->
  In term index_terms ->
  matches page_text term = true ->
  exists snippet,
    index_term i page_text (lower page_text) index_hits term
    = index_hits ++ [py "Page " ++ of_int i ++ py ": " ++ term ++ py ": "
                     ++ snippet]
    /\ matches snippet term = true.
Proof.
  intros K T H.
  destruct (index_term_snippet i page_text index_hits term H)
    as [off [M [_ E]]].
  exists (snippet_at page_text off). split; [exact E|].
  pose proof index_terms_shown as S.
  rewrite forallb_forall in S. specialize (S term T).
  unfold shown_term in S.
  apply andb_prop in S as [S S3]. apply andb_prop in S as [S1 S2].
  apply snippet_shows_term.
  - exact K.
  - intros Q. rewrite Q in S1. discriminate.
  - intros c G. rewrite forallb_forall in S2. specialize (S2 c G).
    destruct (isspace c); [discriminate|reflexivity].
  - apply Nat.leb_le. exact S3.
  - exact M.
Qed.

Lemma hit_snippet_shows_term_witness :
  exists snippet,
    index_term 2 (py "  the treewalker\n") (lower (py "  the treewalker\n"))
               [] (py "TreeWalker")
    = [] ++ [py "Page " ++ of_int 2 ++ py ": " ++ py "TreeWalker" ++ py ": "
             ++ snippet]
    /\ matches snippet (py "TreeWalker") = true.
Proof.
  apply (hit_snippet_shows_term 2 (py "  the treewalker\n")
           (py "TreeWalker") []).
  - reflexivity.
  - vm_compute. tauto.
  - reflexivity.
Defined.

(** ** The hit buffer *)

Lemma uint_chars d a :
  In a (list_ascii_of_string (NilEmpty.string_of_uint d)) ->
  In (Chr a) (py "0123456789").
Proof.
  induction d; cbn [NilEmpty.string_of_uint list_ascii_of_string];
    [intros []| | | | | | | | | |];
    (intros [<-|H]; [vm_compute; tauto|exact (IHd H)]).
Qed.

Lemma of_int_chars i c : In c (of_int i) -> In c (py "-0123456789").
Proof.
  unfold of_int. intros H. apply in_map_iff in H as [a [<- H]].
  assert (U : forall d, In a (list_ascii_of_string (NilZero.string_of_uint d)) ->
                        In (Chr a) (py "-0123456789")).
  { intros d G. right.
    destruct d; [destruct G as [<-|[]]; vm_compute; tauto|..];
      match goal with
      | G : In a (list_ascii_of_string (NilZero.string_of_uint ?u)) |- _ =>
          exact (uint_chars u a G)
      end. }
  destruct (Z.to_int i) as [d|d];
    cbn [NilZero.string_of_int list_ascii_of_string] in H.
  - exact (U d H).
  - destruct H as [<-|H]; [left; reflexivity|exact (U d H)].
Qed.

Lemma of_int_inj i j : of_int i = of_int j -> i = j.
Proof.
  unfold of_int. intros H. apply map_Chr_inj in H.
  apply (f_equal string_of_list_ascii) in H.
  rewrite !string_of_list_ascii_of_string in H.
  apply (f_equal NilZero.int_of_string) in H.
  assert (N : forall z, NilZero.int_of_string (NilZero.string_of_int (Z.to_int z))
                        = Some (Z.to_int z)).
  { intros z. apply NilZero.isi; intros Q;
      pose proof (to_int_normal z) as R; rewrite Q in R; discriminate R. }
  rewrite !N in H. injection H as H. apply DecimalZ.to_int_inj. exact H.
Qed.

Lemma sep_split (x : char) a : forall a' r r',
  ~ In x a -> ~ In x a' -> a ++ x :: r = a' ++ x :: r' -> a = a' /\ r = r'.
Proof.
  induction a as [|c a IH]; intros [|c' a'] r r' N N' E; simpl in E.
  - injection E as E. auto.
  - injection E as E _. exfalso. apply N'. left. symmetry. exact E.
  - injection E as E _. exfalso. apply N. left. exact E.
  - injection E as -> E.
    destruct (IH a' r r') as [-> ->]; auto;
      intros G; [apply N|apply N']; right; exact G.
Qed.

Lemma index_terms_plain :
  forallb (fun term => forallb (fun c => negb (Char.eqb c colon)
                                         && negb (Char.eqb c nl)) term)
          index_terms = true.
Proof. vm_compute. reflexivity. Qed.

Lemma index_term_chars term c :
  In term index_terms -> In c term -> c <> colon /\ c <> nl.
Proof.
  intros T G. pose proof index_terms_plain as P.
  rewrite forallb_forall in P. specialize (P term T).
  rewrite forallb_forall in P. specialize (P c G).
  apply andb_prop in P as [P1 P2].
  split; intros ->; [rewrite char_eqb_refl in P1|rewrite char_eqb_refl in P2];
    discriminate.
Qed.

Lemma hit_line_key i j text text' term term' off off' :
  In term index_terms -> In term' index_terms ->
  hit_line i text term off = hit_line j text' term' off' ->
  i = j /\ term = term'.
Proof.
  intros T T' E. unfold hit_line in E.
  apply app_inv_head in E.
  change (py ": ") with ([colon] ++ py " ") in E.
  rewrite <- !app_assoc in E. cbn [app] in E.
  apply sep_split in E as [E1 E2].
  - apply of_int_inj in E1. subst j. split; [reflexivity|].
    apply app_inv_head in E2.
    apply sep_split in E2 as [E2 _]; [exact E2| |];
      intros G; [apply (proj1 (index_term_chars term colon T G))
                |apply (proj1 (index_term_chars term' colon T' G))];
      reflexivity.
  - intros G. apply of_int_chars in G. vm_compute in G.
    repeat (destruct G as [G|G]; [discriminate G|]). exact G.
  - intros G. apply of_int_chars in G. vm_compute in G.
    repeat (destruct G as [G|G]; [discriminate G|]). exact G.
Qed.

Lemma keyed_key k1 k2 line : keyed k1 line -> keyed k2 line -> k1 = k2.
Proof.
  destruct k1 as [i t], k2 as [j t'].
  intros [T [text [off E]]] [T' [text' [off' E']]]. simpl in *.
  rewrite E in E'. apply hit_line_key in E' as [-> ->]; auto.
Qed.

Lemma keyed_no_newline k line : keyed k line -> ~ In nl line.
Proof.
  intros [T [text [off E]]] G. subst line. unfold hit_line in G.
  repeat (apply in_app_or in G as [G|G]).
  - vm_compute in G. repeat (destruct G as [G|G]; [discriminate G|]). exact G.
  - apply of_int_chars in G. vm_compute in G.
    repeat (destruct G as [G|G]; [discriminate G|]). exact G.
  - vm_compute in G. repeat (destruct G as [G|G]; [discriminate G|]). exact G.
  - apply (proj2 (index_term_chars _ nl T G)). reflexivity.
  - vm_compute in G. repeat (destruct G as [G|G]; [discriminate G|]). exact G.
  - exact (proj1 (proj2 (snippet_shape text off)) G).
Qed.

Lemma Forall2_map_keys {A B C} (R : A -> C -> Prop) (Q : B -> C -> Prop)
    (f : A -> B) (l : list A) (l' : list C) :
  Forall2 R l l' ->
  (forall a c, In a l -> R a c -> Q (f a) c) ->
  Forall2 Q (map f l) l'.
Proof.
  induction 1 as [|a c l l' H F IH]; intros K; [constructor|].
  simpl. constructor.
  - apply K; [left; reflexivity|exact H].
  - apply IH. intros a' c' G. apply K. right. exact G.
Qed.

Lemma page_keys_cons i text rest :
  page_keys i (text :: rest) = page_keys i [text] ++ page_keys (i + 1) rest.
Proof.
  unfold page_keys, kept_pages. cbn [enumerate filter fst snd].
  destruct (nonblank text); cbn [flat_map fst snd];
    rewrite ?app_nil_r; reflexivity.
Qed.

Lemma page_hits_keyed i raw chunks index_hits :
  exists lines,
    snd (page_body i raw (chunks, index_hits)) = index_hits ++ lines
    /\ Forall2 keyed (page_keys i [raw]) lines.
Proof.
  unfold page_keys, kept_pages. cbn [enumerate filter fst snd].
  destruct (nonblank raw) eqn:B.
  - rewrite page_body_hits by exact B.
    destruct (index_terms_loop i (normalize_text raw) index_terms index_hits)
      as [lines [F A]].
    exists lines. split; [exact F|].
    cbn [flat_map fst snd]. rewrite app_nil_r.
    apply (Forall2_map_keys _ _ _ _ _ A).
    intros term line G [off [M E]]. split.
    + apply filter_In in G as [G _]. exact G.
    + exists (normalize_text raw), off. exact E.
  - exists []. split; [|constructor].
    rewrite app_nil_r. unfold nonblank in B. unfold page_body.
    destruct (strip raw); [reflexivity|discriminate].
Qed.

Lemma collect_hits_keyed texts : forall i chunks index_hits,
  exists lines,
    snd (collect i texts (chunks, index_hits)) = index_hits ++ lines
    /\ Forall2 keyed (page_keys i texts) lines.
Proof.
  induction texts as [|text rest IH]; intros i chunks index_hits.
  - exists []. split; [simpl; rewrite app_nil_r; reflexivity|constructor].
  - cbn [collect].
    destruct (page_hits_keyed i text chunks index_hits) as [l1 [E1 K1]].
    destruct (page_body i text (chunks, index_hits)) as [chunks' hits'].
    simpl in E1. subst hits'.
    destruct (IH (i + 1)%Z chunks' (index_hits ++ l1)) as [l2 [E2 K2]].
    exists (l1 ++ l2). split; [rewrite E2, app_assoc; reflexivity|].
    rewrite page_keys_cons. apply Forall2_app; assumption.
Qed.

Lemma ascending_nodup (l : list Z) : StronglySorted Z.lt l -> NoDup l.
Proof.
  induction 1 as [|a l S IH F]; constructor; [|exact IH].
  intros G. rewrite Forall_forall in F. specialize (F a G). lia.
Qed.

Lemma pair_nodup {A B} (a : A) (l : list B) :
  NoDup l -> NoDup (map (pair a) l).
Proof.
  induction 1 as [|b l N _ IH]; simpl; constructor; [|exact IH].
  intros G. apply in_map_iff in G as [b' [E G]].
  injection E as ->. exact (N G).
Qed.

Lemma keys_nodup {A} (terms : Z * A -> list str) (ps : list (Z * A)) :
  (forall p, NoDup (terms p)) ->
  StronglySorted Z.lt (map fst ps) ->
  NoDup (flat_map (fun p => map (pair (fst p)) (terms p)) ps).
Proof.
  intros N. induction ps as [|p ps IH]; intros S; [constructor|].
  simpl in S. inversion S as [|? ? S' F]; subst.
  cbn [flat_map]. apply NoDup_app.
  - apply pair_nodup, N.
  - apply IH. exact S'.
  - intros k G1 G2.
    apply in_map_iff in G1 as [t [<- _]].
    apply in_flat_map in G2 as [q [Q G2]].
    apply in_map_iff in G2 as [t' [E _]]. injection E as E _.
    rewrite Forall_forall in F.
    specialize (F (fst q) (in_map fst _ _ Q)). lia.
Qed.

Lemma page_keys_nodup i texts : NoDup (page_keys i texts).
Proof.
  unfold page_keys. apply keys_nodup.
  - intros p. apply NoDup_filter, index_terms_nodup.
  - apply filter_ascending, enumerate_ascending.
Qed.

Lemma keyed_lines_nodup keys : forall lines,
  Forall2 keyed keys lines -> NoDup keys -> NoDup lines.
Proof.
  induction keys as [|k keys IH]; intros lines F N;
    inversion F as [|? line ? lines' K F']; subst; [constructor|].
  inversion N as [|? ? Nk N']; subst.
  constructor; [|apply IH; assumption].
  intros G. apply Nk.
  clear - G F' K. induction F' as [|k' line' keys lines' K' F' IH'];
    [destruct G|].
  destruct G as [<-|G].
  - left. exact (keyed_key _ _ _ K' K).
  - right. apply IH'. exact G.
Qed.

Lemma hit_buffer_keyed pages :
  Forall2 keyed (page_keys 1 (map text_of pages)) (snd (all_buffers pages)).
Proof.
  unfold all_buffers.
  destruct (collect_hits_keyed (map text_of pages) 1%Z [] []) as [lines [E K]].
  rewrite E. exact K.
Qed.

Lemma hit_buffer_nodup pages : NoDup (snd (all_buffers pages)).
Proof.
  apply (keyed_lines_nodup _ _ (hit_buffer_keyed pages)), page_keys_nodup.
Qed.

(** X7. The hit buffer never holds the same line twice, whatever the
    pages are: [set(index_hits)] removes nothing. *)
Theorem hits_never_repeat (pages : list extraction) :
  NoDup (snd (all_buffers pages))
  /\ py_set (snd (all_buffers pages)) = snd (all_buffers pages).
Proof.
  split; [apply hit_buffer_nodup|].
  apply nodup_fixed_point, hit_buffer_nodup.
Qed.

Lemma join_cons sep p q rest :
  join sep (p :: q :: rest) = p ++ sep ++ join sep (q :: rest).
Proof. reflexivity. Qed.

Lemma join_newlines lines :
  Forall (fun line => ~ In nl line) lines ->
  count_char nl (join [nl] lines) = length lines - 1.
Proof.
  unfold count_char.
  induction lines as [|line rest IH]; intros F; [reflexivity|].
  inversion F as [|? ? Hl Hr]; subst.
  assert (Z0 : count_occ char_dec line nl = 0) by (apply count_occ_not_In; exact Hl).
  destruct rest as [|line' rest'].
  - simpl. exact Z0.
  - rewrite join_cons, !count_occ_app, Z0. unfold str in *.
    rewrite (IH Hr).
    cbn [count_occ length]. destruct (char_dec nl nl); [lia|congruence].
Qed.

Lemma hit_buffer_lines pages :
  Forall (fun line => ~ In nl line) (snd (all_buffers pages)).
Proof.
  pose proof (hit_buffer_keyed pages) as K.
  induction K as [|k line keys lines Hk K IH]; constructor; [|exact IH].
  exact (keyed_no_newline k line Hk).
Qed.

(** X8. The index file has one line per recorded hit: it holds as many
    newlines as there are hits in the buffer, and a single newline when
    there is none. *)
Theorem index_lines_count (pages : list extraction) :
  count_char nl (index_content (snd (all_buffers pages)))
  = Nat.max 1 (length (snd (all_buffers pages))).
Proof.
  unfold index_content.
  unfold py_set. rewrite nodup_fixed_point by apply hit_buffer_nodup.
  change (py "\n") with [nl]. unfold count_char.
  rewrite count_occ_app.
  fold (count_char nl (join [nl] (sorted (snd (all_buffers pages))))).
  rewrite join_newlines.
  - rewrite (Permutation_length (sorted_perm _)). cbn [count_occ].
    destruct (char_dec nl nl); [lia|congruence].
  - pose proof (hit_buffer_lines pages) as F.
    rewrite Forall_forall in *. intros line G. apply F.
    exact (Permutation_in _ (sorted_perm _) G).
Qed.

(** ** More on the two files and the status lines *)

(** X9. The index file depends only on which hit lines were recorded, not
    on their order or on how often each was recorded. *)
Theorem index_content_canonical (hits hits' : list str) :
  (forall h, In h hits <-> In h hits') ->
  index_content hits = index_content hits'.
Proof.
  intros H. unfold index_content. f_equal. f_equal.
  destruct (sorted_set_spec hits) as [I [S _]].
  destruct (sorted_set_spec hits') as [_ [_ U]].
  apply U; [|exact S]. intros h. rewrite I. apply H.
Qed.

Lemma index_content_canonical_witness :
  index_content [py "b"; py "a"; py "b"] = index_content [py "a"; py "b"].
Proof.
  apply (index_content_canonical [py "b"; py "a"; py "b"] [py "a"; py "b"]).
  intros h. simpl. tauto.
Defined.

Lemma all_buffers_chunks pages :
  fst (all_buffers pages) = map chunk_of (kept_pages 1 (map text_of pages)).
Proof. unfold all_buffers. rewrite collect_chunks. reflexivity. Qed.

(** X10. When some page is kept, stripping the concatenation removes the
    two newlines before the first marker and nothing else: the full text
    starts with "=== Page k ===" for the first kept page [k] and goes on
    with every chunk unchanged. *)
Theorem txt_content_starts_with_marker (pages : list extraction)
    (k : Z) (text : str) (ps : list (Z * str)) :
  kept_pages 1 (map text_of pages) = (k, text) :: ps ->
  txt_content (fst (all_buffers pages))
  = py "=== Page " ++ of_int k ++ py " ===\n\n"
    ++ normalize_text text ++ concat (map chunk_of ps) ++ py "\n".
Proof.
  intros K. rewrite all_buffers_chunks, K. unfold txt_content.
  cbn [map concat]. unfold chunk_of at 1. cbn [fst snd].
  change (py "\n\n=== Page ") with (nl :: nl :: py "=== Page ").
  cbn [app lstrip].
  change (isspace nl) with true. cbn iota.
  change (py "=== Page ") with ((Chr "="%char) :: py "== Page ").
  cbn [app lstrip]. change (isspace (Chr "="%char)) with false. cbn iota.
  cbn [app]. rewrite <- !app_assoc. reflexivity.
Qed.

Lemma three_pages_kept :
  kept_pages 1 (map text_of three_pages)
  = [(1%Z, py "hello AutomationElement world");
     (3%Z, py "  nothing  of interest  ")].
Proof. vm_compute. reflexivity. Qed.

Lemma txt_content_starts_with_marker_witness :
  txt_content (fst (all_buffers three_pages))
  = py "=== Page " ++ of_int 1 ++ py " ===\n\n"
    ++ normalize_text (py "hello AutomationElement world")
    ++ concat (map chunk_of [(3%Z, py "  nothing  of interest  ")])
    ++ py "\n".
Proof.
  exact (txt_content_starts_with_marker three_pages _ _ _ three_pages_kept).
Defined.

(** X11. The status lines are printed after both writes and only then: a
    run that fails prints nothing, and a run that succeeds prints the two
    "Wrote:" lines and the number of all pages of the document, blank ones
    included. *)
Theorem status_lines_only_on_success (e : env) :
  (fst (run e) <> Ok tt /\ stdout (snd (run e)) = [])
  \/ (exists pages,
        pdf_pages e = Some pages
        /\ fst (run e) = Ok tt
        /\ stdout (snd (run e))
           = [py "Wrote: " ++ path_text e OutTxt;
              py "Wrote: " ++ path_text e OutIndex;
              py "Pages processed: " ++ of_int (Z.of_nat (length pages))]).
Proof.
  destruct (run_outcome e)
    as [[_ R]|[[_ R]|[[good [rest [_ R]]]|[[pages [_ [_ R]]]|
        [[pages [_ [_ R]]]|[pages [P [_ R]]]]]]]]; rewrite R.
  1-5: left; split; [discriminate|reflexivity].
  right. exists pages. repeat split. exact P.
Qed.

(** X12. The two files are written one after the other: when the write of
    the index file fails, the run fails with the full text already
    replaced; the index file is as it was if it could not be opened, and
    holds what the failed write left in the truncated file otherwise. *)
Theorem index_write_failure_keeps_new_text (e : env)
    (pages : list extraction) :
  pdf_exists e = true -> pdf_pages e = Some pages -> Forall readable pages ->
  can_write e OutTxt = true -> can_write e OutIndex = false ->
  fst (run e) = Raised (WriteError OutIndex)
  /\ txt_file (snd (run e)) = Some (txt_content (fst (all_buffers pages)))
  /\ index_file (snd (run e))
     = match failed_write e OutIndex with
       | None => index_before e
       | Some remains => Some remains
       end
  /\ stdout (snd (run e)) = [].
Proof.
  intros H P G W1 W2.
  rewrite (run_index_unwritable e pages H P G W1 W2).
  cbn [fst snd txt_file index_file stdout]. unfold left_by_failure.
  destruct (failed_write e OutIndex); repeat split.
Qed.

Lemma index_write_failure_keeps_new_text_witness :
  fst (run index_locked_env) = Raised (WriteError OutIndex)
  /\ txt_file (snd (run index_locked_env))
     = Some (txt_content (fst (all_buffers [Extracted (py "TreeWalker")])))
  /\ index_file (snd (run index_locked_env))
     = match failed_write index_locked_env OutIndex with
       | None => index_before index_locked_env
       | Some remains => Some remains
       end
  /\ stdout (snd (run index_locked_env)) = [].
Proof.
  apply (index_write_failure_keeps_new_text index_locked_env
           [Extracted (py "TreeWalker")]); try reflexivity.
  repeat constructor; discriminate.
Defined.

(** X13. The page loop stops at the first page whose extraction raises:
    the run fails with that page's error, no later page is extracted, both
    files stay as they were and nothing is printed. *)
Theorem first_page_error_stops_run (e : env)
    (good rest : list extraction) :
  pdf_exists e = true ->
  pdf_pages e = Some (good ++ ExtractionError :: rest) ->
  Forall readable good ->
  fst (run e) = Raised (PageError (1 + Z.of_nat (length good)))
  /\ events (snd (run e))
     = EvExists :: EvOpenReader
       :: map (fun p => EvExtract (fst p))
              (enumerate 1 (good ++ [ExtractionError]))
  /\ txt_file (snd (run e)) = txt_before e
  /\ index_file (snd (run e)) = index_before e
  /\ stdout (snd (run e)) = [].
Proof.
  intros H P G. rewrite (run_page_error e good rest H P G). repeat split.
Qed.

Lemma first_page_error_stops_run_witness :
  fst (run broken_page_env) = Raised (PageError (1 + Z.of_nat 1))
  /\ events (snd (run broken_page_env))
     = EvExists :: EvOpenReader
       :: map (fun p => EvExtract (fst p))
              (enumerate 1 ([Extracted (py "TreeWalker")] ++ [ExtractionError]))
  /\ txt_file (snd (run broken_page_env)) = txt_before broken_page_env
  /\ index_file (snd (run broken_page_env)) = index_before broken_page_env
  /\ stdout (snd (run broken_page_env)) = [].
Proof.
  apply (first_page_error_stops_run broken_page_env
           [Extracted (py "TreeWalker")] [Extracted (py "Condition")]);
    try reflexivity.
  repeat constructor; discriminate.
Defined.

(** ** More on what is indexed and kept *)

Lemma inner_term_matches (page_text inner outer : str) :
  contains (lower inner) (lower outer) = true ->
  matches page_text outer = true ->
  matches page_text inner = true.
Proof.
  unfold matches. rewrite !contains_substring.
  intros [a [b E]] [x [y F]]. rewrite E in F.
  exists (x ++ a), (b ++ y). rewrite F, <- !app_assoc. reflexivity.
Qed.

Lemma Forall2_in_r {A B} (R : A -> B -> Prop) l l' b :
  Forall2 R l l' -> In b l' -> exists a, In a l /\ R a b.
Proof.
  induction 1 as [|x y l l' H F IH]; intros G; [destruct G|].
  destruct G as [<-|G].
  - exists x. split; [left; reflexivity|exact H].
  - destruct (IH G) as [a [Ia Ra]]. exists a. split; [right; exact Ia|exact Ra].
Qed.

Lemma Forall2_in_l {A B} (R : A -> B -> Prop) l l' a :
  Forall2 R l l' -> In a l -> exists b, In b l' /\ R a b.
Proof.
  induction 1 as [|x y l l' H F IH]; intros G; [destruct G|].
  destruct G as [<-|G].
  - exists y. split; [left; reflexivity|exact H].
  - destruct (IH G) as [b [Ib Rb]]. exists b. split; [right; exact Ib|exact Rb].
Qed.

(** X14. A listed term that is part of another listed term gets its line
    wherever the longer one does: when the term loop records a hit for
    "PropertyCondition" on a page, it records one for "Condition" too. *)
Theorem inner_term_also_recorded (i : Z) (page_text inner outer : str) :
  In inner index_terms -> In outer index_terms ->
  contains (lower inner) (lower outer) = true ->
  (exists line,
     In line (fold_left (index_term i page_text (lower page_text))
                        index_terms [])
     /\ hit_of i page_text outer line) ->
  exists line,
    In line (fold_left (index_term i page_text (lower page_text))
                       index_terms [])
    /\ hit_of i page_text inner line.
Proof.
  intros Ti To C [line [G Ho]].
  destruct (index_terms_loop i page_text index_terms []) as [lines [F A]].
  rewrite F in *. cbn [app] in *.
  destruct (Forall2_in_r _ _ _ _ A G) as [t [Tt Ht]].
  apply filter_In in Tt as [Tt Mt].
  assert (E : t = outer).
  { destruct Ht as [off [_ E1]], Ho as [off' [_ E2]]. rewrite E1 in E2.
    apply hit_line_key in E2 as [_ E2]; assumption. }
  subst t.
  assert (Mi : matches page_text inner = true)
    by (apply (inner_term_matches page_text inner outer); assumption).
  apply (Forall2_in_l _ _ _ inner A). apply filter_In. auto.
Qed.

Lemma inner_term_also_recorded_witness :
  exists line,
    In line (fold_left (index_term 1 (py "a propertycondition here\n")
                                   (lower (py "a propertycondition here\n")))
                       index_terms [])
    /\ hit_of 1 (py "a propertycondition here\n") (py "Condition") line.
Proof.
  apply (inner_term_also_recorded 1 (py "a propertycondition here\n")
           (py "Condition") (py "PropertyCondition")).
  - vm_compute. tauto.
  - vm_compute. tauto.
  - reflexivity.
  - exists (py "Page 1: PropertyCondition: a propertycondition here").
    split; [vm_compute; tauto|].
    exists 2. split; [|vm_compute; reflexivity].
    split; [vm_compute; lia|]. split; [reflexivity|].
    intros [|[|j]] Hj; [reflexivity|reflexivity|lia].
Defined.

Lemma filter_shorter {A} (f : A -> bool) l : length (filter f l) <= length l.
Proof.
  induction l as [|a l IH]; simpl; [lia|]. destruct (f a); simpl; lia.
Qed.

Lemma enumerate_length {A} (xs : list A) : forall i,
  length (enumerate i xs) = length xs.
Proof. induction xs as [|x r IH]; intros i; simpl; [|rewrite IH]; reflexivity. Qed.

Lemma keys_bound {A} (terms : Z * A -> list str) (ps : list (Z * A)) n :
  (forall p, length (terms p) <= n) ->
  length (flat_map (fun p => map (pair (fst p)) (terms p)) ps) <= n * length ps.
Proof.
  intros B. induction ps as [|p ps IH]; simpl; [lia|].
  rewrite length_app, length_map. specialize (B p). lia.
Qed.

(** X15. The chunk buffer gets one chunk per page that is not blank, so at
    most one per page, and the hit buffer at most 25 lines per chunk. *)
Theorem buffer_sizes (pages : list extraction) :
  length (fst (all_buffers pages))
  = length (kept_pages 1 (map text_of pages))
  /\ length (fst (all_buffers pages)) <= length pages
  /\ length (snd (all_buffers pages)) <= 25 * length (fst (all_buffers pages)).
Proof.
  rewrite all_buffers_chunks, length_map. split; [reflexivity|]. split.
  - unfold kept_pages.
    pose proof (filter_shorter (fun p : Z * str => nonblank (snd p))
                  (enumerate 1 (map text_of pages))) as L.
    rewrite enumerate_length, length_map in L. exact L.
  - rewrite <- (Forall2_length (hit_buffer_keyed pages)).
    unfold page_keys. apply keys_bound. intros p.
    pose proof (filter_shorter (matches (normalize_text (snd p))) index_terms).
    change (length index_terms) with 25 in *. lia.
Qed.

Lemma enumerate_position {A} (xs : list A) : forall i j x,
  In (j, x) (enumerate i xs)
  <-> (i <= j)%Z /\ nth_error xs (Z.to_nat (j - i)) = Some x.
Proof.
  induction xs as [|a r IH]; intros i j x.
  - simpl. split; [intros []|].
    intros [_ H]. destruct (Z.to_nat (j - i)); discriminate.
  - cbn [enumerate In]. rewrite IH. split.
    + intros [E|[L N]].
      * injection E as -> ->. split; [lia|].
        replace (j - j)%Z with 0%Z by lia. reflexivity.
      * split; [lia|].
        replace (Z.to_nat (j - i)) with (S (Z.to_nat (j - (i + 1)))) by lia.
        exact N.
    + intros [L N]. destruct (Z.eq_dec i j) as [->|D].
      * left. replace (j - j)%Z with 0%Z in N by lia.
        simpl in N. injection N as ->. reflexivity.
      * right. split; [lia|].
        replace (Z.to_nat (j - i)) with (S (Z.to_nat (j - (i + 1)))) in N by lia.
        exact N.
Qed.

Lemma kept_pages_position (texts : list str) (j : Z) (text : str) :
  In (j, text) (kept_pages 1 texts)
  <-> (1 <= j)%Z
      /\ nth_error texts (Z.to_nat (j - 1)) = Some text
      /\ nonblank text = true.
Proof.
  unfold kept_pages. rewrite filter_In, enumerate_position. simpl. tauto.
Qed.

(** X16. The ordinal in the marker of a chunk is the position of its page
    in the document, counted from 1 with the blank pages included: the
    chunk buffer holds exactly the chunks "\n\n=== Page j ===\n\n" followed
    by the normalized text of page j, for the pages j that are not blank. *)
Theorem chunk_ordinal_is_position (pages : list extraction) (chunk : str) :
  In chunk (fst (all_buffers pages))
  <-> exists j text,
        (1 <= j)%Z
        /\ nth_error (map text_of pages) (Z.to_nat (j - 1)) = Some text
        /\ nonblank text = true
        /\ chunk = py "\n\n=== Page " ++ of_int j ++ py " ===\n\n"
                   ++ normalize_text text.
Proof.
  rewrite all_buffers_chunks, in_map_iff. split.
  - intros [[j text] [E K]]. apply kept_pages_position in K as [L [N B]].
    exists j, text. subst chunk. auto.
  - intros [j [text [L [N [B E]]]]]. exists (j, text).
    split; [subst chunk; reflexivity|].
    apply kept_pages_position. auto.
Qed.

Lemma page_keys_spec i texts j term :
  In (j, term) (page_keys i texts)
  <-> exists text,
        In (j, text) (kept_pages i texts)
        /\ In term index_terms
        /\ matches (normalize_text text) term = true.
Proof.
  unfold page_keys. rewrite in_flat_map. split.
  - intros [[k text] [K G]]. cbn [fst snd] in G.
    apply in_map_iff in G as [t [E G]]. injection E as -> ->.
    apply filter_In in G as [G M]. exists text. auto.
  - intros [text [K [T M]]]. exists (j, text). split; [exact K|].
    cbn [fst snd]. apply in_map, filter_In. auto.
Qed.

(** X17. Over the whole document the hit buffer holds exactly one line for
    each pair of a kept page and a listed term matching its normalized
    text, in page order and, within a page, in the order of the term
    list. *)
Theorem hit_buffer_one_line_per_match (pages : list extraction) :
  Forall2 keyed (page_keys 1 (map text_of pages)) (snd (all_buffers pages))
  /\ NoDup (page_keys 1 (map text_of pages))
  /\ StronglySorted Z.le (map fst (page_keys 1 (map text_of pages)))
  /\ forall j term,
       In (j, term) (page_keys 1 (map text_of pages))
       <-> exists text,
             In (j, text) (kept_pages 1 (map text_of pages))
             /\ In term index_terms
             /\ matches (normalize_text text) term = true.
Proof.
  split; [apply hit_buffer_keyed|]. split; [apply page_keys_nodup|].
  split; [|intros j term; apply page_keys_spec].
  unfold page_keys.
  pose proof (filter_ascending (fun p : Z * str => nonblank (snd p)) _
                (enumerate_ascending (map text_of pages) 1%Z)) as S.
  fold (kept_pages 1 (map text_of pages)) in S.
  induction (kept_pages 1 (map text_of pages)) as [|p ps IH]; [constructor|].
  simpl in S. inversion S as [|? ? S' F]; subst.
  cbn [flat_map]. rewrite map_app, map_map. cbn [fst].
  induction (filter (matches (normalize_text (snd p))) index_terms)
    as [|t ts IHt]; [exact (IH S')|].
  cbn [map app]. constructor; [exact IHt|].
  apply Forall_forall. intros z G. apply in_app_or in G as [G|G].
  - apply in_map_iff in G as [t' [<- _]]. lia.
  - apply in_map_iff in G as [k [<- G]].
    apply in_flat_map in G as [q [Q G]].
    apply in_map_iff in G as [t' [<- _]]. cbn [fst].
    rewrite Forall_forall in F. specialize (F (fst q) (in_map fst _ _ Q)). lia.
Qed.




